(** * Consultant project matcher: model of the front end and of the matching core

    The development follows the repository:
    - [Js]: JavaScript strings as sequences of UTF-16 code units, with
      [String.prototype.trim] and truthiness, as the React components use them;
    - [Chat]: the role elicitation dialogue of
      [frontend/src/components/ChatInterface.tsx] ([handleSend]) and the
      completion callback of [frontend/src/pages/ChatPage.tsx];
    - [DescriptionPage]: the submission boundary of [ProjectDescriptionPage];
    - [ConsultantType]: the [Consultant] interface;
    - [Normalizer], [Scorer], [Ranker], [TeamAssembler]: the matching core,
      which lives in the back end and is modelled from the specification;
    - [ChatUi], [ChatAsync], [ChatPage], [DescriptionPageView],
      [ConsultantFields]: the keyboard handler and Send button of the chat,
      [handleSend] with its request in flight, the overview column of the chat
      page, what the description page shows, the declared fields;
    - [Scripts]: setup.sh and the container entry point, as traces of the
      commands they run. *)

From Stdlib Require Import ZArith NArith QArith Lqa String Ascii.
From stdpp Require Import base option list sorting strings pretty gmap.

Close Scope Q_scope.
Open Scope nat_scope.

(** ** JavaScript strings *)

Module Js.

(** A JavaScript string is a sequence of UTF-16 code units; [length] counts
    code units, and so do [maxLength] and [String.prototype.length]. *)
Abbreviation JsString := (list N).

(** An ASCII literal of the source, as code units. *)
Definition lit (s : string) : JsString :=
  List.map N_of_ascii (list_ascii_of_string s).

(** ECMAScript WhiteSpace and LineTerminator code points, the characters
    [trim] strips: TAB, LF, VT, FF, CR, SP, NBSP, U+1680, U+2000..U+200A,
    LS, PS, U+202F, U+205F, U+3000 and the BOM. All are in the BMP, so the
    test is exact on code units. *)
Definition isWhiteSpace (c : N) : bool :=
  ((9 <=? c) && (c <=? 13) || (c =? 32) || (c =? 160) || (c =? 5760)
   || (8192 <=? c) && (c <=? 8202) || (c =? 8232) || (c =? 8233)
   || (c =? 8239) || (c =? 8287) || (c =? 12288) || (c =? 65279))%N.

Fixpoint trimStart (s : JsString) : JsString :=
  match s with
  | [] => []
  | c :: s' => if isWhiteSpace c then trimStart s' else s
  end.

Definition trimEnd (s : JsString) : JsString := rev (trimStart (rev s)).

(** [s.trim()] *)
Definition trim (s : JsString) : JsString := trimEnd (trimStart s).

(** ToBoolean on a string: only the empty string is falsy. *)
Definition truthy (s : JsString) : bool :=
  match s with [] => false | _ :: _ => true end.

(** The text has a character that is not white space. *)
Definition hasVisibleChar (s : JsString) : bool :=
  existsb (fun c => negb (isWhiteSpace c)) s.

End Js.

Import Js.

(** ** The role elicitation dialogue (ChatInterface.tsx, ChatPage.tsx) *)

Module Chat.

Inductive Role := user | assistant.

Record ChatMessage := mkMessage { role : Role; content : JsString }.

(** Modelled from the spec: the element type of [response.roles] is declared
    in [lib/api], which is not among the sources ([ChatInterface] sees
    [any[]]). Section 3 gives a RoleSpec a title, a set of required skills, an
    optional seniority hint and a free-text context. *)
Record RoleSpec := mkRoleSpec {
  title : JsString;
  requiredSkills : list JsString;
  seniority : option JsString;
  context : JsString
}.

(** The completeness invariant of section 3: a non-empty title and at least
    one required skill. *)
Definition roleComplete (r : RoleSpec) : bool :=
  truthy (title r) && negb (Nat.eqb (length (requiredSkills r)) 0).

(** What [sendChatMessage] resolves to; [handleSend] reads [content],
    [isComplete] and [roles]. [roles] may be missing ([None]); an array, also
    the empty one, is truthy. *)
Record ChatResponse := mkResponse {
  resContent : JsString;
  isComplete : bool;
  roles : option (list RoleSpec)
}.

(** A thrown value, as the [catch] block tells them apart:
    [error instanceof Error ? error.message : String(error)]. *)
Inductive Thrown :=
| ThrownError (message : JsString)
| ThrownOther (asString : JsString).

Definition errorText (e : Thrown) : JsString :=
  match e with
  | ThrownError message => message
  | ThrownOther asString => asString
  end.

(** Outcome of awaiting a promise. *)
Inductive Settled (A : Type) :=
| Fulfilled (v : A)
| RejectedWith (e : Thrown).
Arguments Fulfilled {A} v.
Arguments RejectedWith {A} e.

(** The language-generation capability behind [sendChatMessage]: any function
    of the history sent to it. *)
Definition Capability := list ChatMessage -> Settled ChatResponse.

(** ChatPage's route: [handleComplete] navigates to [/results] with the roles. *)
Inductive Route :=
| ChatRoute
| ResultsRoute (rolesState : list RoleSpec).

(** Component state ([useState] cells), the timers registered with
    [setTimeout], the console, and the router. *)
Record ChatState := mkChat {
  messages : list ChatMessage;
  input : JsString;
  loading : bool;
  timers : list (list RoleSpec);
  consoleErrors : list Thrown;
  route : Route
}.

Definition greeting : ChatMessage :=
  mkMessage assistant
    (lit "Hi! I'm here to help you assemble your development team. Tell me about your project - what are you looking to build?").

Definition initialState : ChatState :=
  mkChat [greeting] [] false [] [] ChatRoute.

(** *** A state monad for the component's effects *)

Definition Eff (A : Type) : Type := ChatState -> A * ChatState.

Definition ret {A} (a : A) : Eff A := fun st => (a, st).
Definition bind {A B} (m : Eff A) (k : A -> Eff B) : Eff B :=
  fun st => let (a, st') := m st in k a st'.

Notation "m ;; k" := (bind m (fun _ => k))
  (at level 100, k at level 200, right associativity).

Definition setMessages (ms : list ChatMessage) : Eff unit :=
  fun st => (tt, mkChat ms (input st) (loading st) (timers st) (consoleErrors st) (route st)).
Definition setInput (v : JsString) : Eff unit :=
  fun st => (tt, mkChat (messages st) v (loading st) (timers st) (consoleErrors st) (route st)).
Definition setLoading (b : bool) : Eff unit :=
  fun st => (tt, mkChat (messages st) (input st) b (timers st) (consoleErrors st) (route st)).
(** [setTimeout(() => onComplete(roles), delay)]: the callback is queued. *)
Definition setTimeoutOnComplete (rs : list RoleSpec) : Eff unit :=
  fun st => (tt, mkChat (messages st) (input st) (loading st) (timers st ++ [rs]) (consoleErrors st) (route st)).
Definition consoleError (e : Thrown) : Eff unit :=
  fun st => (tt, mkChat (messages st) (input st) (loading st) (timers st) (consoleErrors st ++ [e]) (route st)).
(** [navigate("/results", { state: { roles } })] *)
Definition navigateResults (rs : list RoleSpec) : Eff unit :=
  fun st => (tt, mkChat (messages st) (input st) (loading st) (timers st) (consoleErrors st) (ResultsRoute rs)).

(** [handleComplete] of ChatPage, passed to ChatInterface as [onComplete]. *)
Definition handleComplete (rs : list RoleSpec) : Eff unit := navigateResults rs.

(** [handleSend]; [messages], [input] and [loading] are the values of the
    render the handler was created in. *)
Definition handleSend (sendChatMessage : Capability) : Eff unit :=
  fun st0 =>
  (if negb (truthy (trim (input st0))) || loading st0 then ret tt
   else
     let userMessage := mkMessage user (trim (input st0)) in
     let newMessages := messages st0 ++ [userMessage] in
     setMessages newMessages ;;
     setInput [] ;;
     setLoading true ;;
     (match sendChatMessage newMessages with
      | Fulfilled response =>
          let assistantMessage := mkMessage assistant (resContent response) in
          setMessages (newMessages ++ [assistantMessage]) ;;
          match isComplete response, roles response with
          | true, Some rs => setTimeoutOnComplete rs
          | _, _ => ret tt
          end
      | RejectedWith error =>
          consoleError error ;;
          let errorMessage := mkMessage assistant (lit "Error: " ++ errorText error) in
          setMessages (newMessages ++ [errorMessage])
      end) ;;
     setLoading false) st0.

(** The oldest pending timer fires and runs its callback. *)
Definition fireTimer : Eff unit :=
  fun st =>
  match timers st with
  | [] => (tt, st)
  | rs :: rest =>
      handleComplete rs
        (mkChat (messages st) (input st) (loading st) rest (consoleErrors st) (route st))
  end.

(** The two states of the dialogue: [COMPLETE] is reached when [onComplete]
    has run and the page shows the results for the roles it was given. *)
Inductive Phase :=
| GATHERING
| COMPLETE (carried : list RoleSpec).

Definition phase (st : ChatState) : Phase :=
  match route st with
  | ChatRoute => GATHERING
  | ResultsRoute rs => COMPLETE rs
  end.

(** What happens to the component: the user edits the input box, sends, or a
    timer fires. *)
Inductive Event :=
| EvInput (v : JsString)
| EvSend
| EvTimer.

Definition step (cap : Capability) (ev : Event) (st : ChatState) : ChatState :=
  match ev with
  | EvInput v => snd (setInput v st)
  | EvSend => snd (handleSend cap st)
  | EvTimer => snd (fireTimer st)
  end.

Definition run (cap : Capability) (evs : list Event) (st : ChatState) : ChatState :=
  fold_left (fun s ev => step cap ev s) evs st.

(** A send is a turn when the handler does not return at its guard. *)
Definition isTurn (st : ChatState) : bool :=
  truthy (trim (input st)) && negb (loading st).

(** The history a turn sends to the capability. *)
Definition sentHistory (st : ChatState) : list ChatMessage :=
  messages st ++ [mkMessage user (trim (input st))].

(** The assistant bubble a turn ends with: the reply, or the error text. *)
Definition turnReply (cap : Capability) (st : ChatState) : ChatMessage :=
  match cap (sentHistory st) with
  | Fulfilled response => mkMessage assistant (resContent response)
  | RejectedWith e => mkMessage assistant (lit "Error: " ++ errorText e)
  end.

(** The completion a turn schedules, if any. *)
Definition turnCompletion (cap : Capability) (st : ChatState) : list (list RoleSpec) :=
  match cap (sentHistory st) with
  | Fulfilled response =>
      match isComplete response, roles response with
      | true, Some rs => [rs]
      | _, _ => []
      end
  | RejectedWith _ => []
  end.

Definition turnErrors (cap : Capability) (st : ChatState) : list Thrown :=
  match cap (sentHistory st) with
  | Fulfilled _ => []
  | RejectedWith e => [e]
  end.

(** Sample capabilities and states. *)

Definition failing : Capability :=
  fun _ => RejectedWith (ThrownError (lit "Failed to fetch")).

Definition typed (v : JsString) : ChatState := snd (setInput v initialState).

Definition backendRole : RoleSpec :=
  mkRoleSpec (lit "Backend developer") [lit "Python"] None (lit "API work").

Definition completing (rs : list RoleSpec) : Capability :=
  fun _ => Fulfilled (mkResponse (lit "Great, I have what I need.") true (Some rs)).

(** A RoleSpec with no title and no required skill. *)
Definition emptyRole : RoleSpec := mkRoleSpec [] [] None [].

End Chat.

(** ** The submission boundary (ProjectDescriptionPage) *)

Module DescriptionPage.

Definition maxCharacters : Z := 5000.

Definition characterCount (description : JsString) : Z :=
  Z.of_nat (length description).

(** [navigate("/results", { state: { projectDescription } })]: a match
    request leaves the page with this description. *)
Record MatchRequest := mkRequest { projectDescription : JsString }.

(** [handlePost]: posts when the trimmed description is truthy, else does
    nothing. *)
Definition handlePost (description : JsString) : option MatchRequest :=
  if truthy (trim description) then Some (mkRequest description) else None.

(** The [disabled] attribute of the Post button. *)
Definition postDisabled (description : JsString) : bool :=
  negb (truthy (trim description)) || (maxCharacters <? characterCount description)%Z.

Inductive Key := Enter | OtherKey.

Record KeyboardEvent := mkKey { key : Key; metaKey : bool; ctrlKey : bool }.

(** The textarea's [onKeyDown]. *)
Definition onKeyDown (e : KeyboardEvent) (description : JsString) : option MatchRequest :=
  match key e with
  | Enter => if metaKey e || ctrlKey e then handlePost description else None
  | OtherKey => None
  end.

(** The button's [onClick]; a disabled button dispatches no click. *)
Definition onClick (description : JsString) : option MatchRequest :=
  if postDisabled description then None else handlePost description.

(** What the user can do on the page. [Edit v] is an edit of the textarea
    that leaves it holding [v]; the browser then calls [onChange]. *)
Inductive Event :=
| Edit (v : JsString)
| Click
| KeyDown (e : KeyboardEvent).

(** [maxLength={maxCharacters}]: the browser lets no user edit take the
    value beyond that many code units. *)
Definition withinMaxLength (ev : Event) : bool :=
  match ev with
  | Edit v => (characterCount v <=? maxCharacters)%Z
  | Click | KeyDown _ => true
  end.

(** One event: the new [description] state and the request posted, if any. *)
Definition step (description : JsString) (ev : Event) : JsString * option MatchRequest :=
  match ev with
  | Edit v => (v, None)
  | Click => (description, onClick description)
  | KeyDown e => (description, onKeyDown e description)
  end.

(** All requests posted along a sequence of events, from [description]. *)
Fixpoint posted (description : JsString) (evs : list Event) : list MatchRequest :=
  match evs with
  | [] => []
  | ev :: evs' =>
      let (d', out) := step description ev in
      match out with
      | Some r => r :: posted d' evs'
      | None => posted d' evs'
      end
  end.

(** [useState("")] *)
Definition initialDescription : JsString := [].

End DescriptionPage.

(** ** The Consultant interface (types/consultant.ts) *)

Module ConsultantType.

(** A property value of a record as it arrives from the API. *)
Inductive JsValue :=
| VUndefined
| VNull
| VBoolean (b : bool)
| VNumber (q : Q)
| VString (s : JsString)
| VStrings (l : list JsString).

(** A plain object: its own properties by name. *)
Abbreviation JsObject := (gmap string JsValue).

Inductive FieldType := TString | TNumber | TBoolean | TStringArray.

Definition hasType (t : FieldType) (v : JsValue) : bool :=
  match t, v with
  | TString, VString _ => true
  | TNumber, VNumber _ => true
  | TBoolean, VBoolean _ => true
  | TStringArray, VStrings _ => true
  | _, _ => false
  end.

(** A property declared [p: T]. *)
Definition required (t : FieldType) (p : string) (o : JsObject) : bool :=
  match o !! p with
  | Some v => hasType t v
  | None => false
  end.

(** A property declared [p?: T]: missing, [undefined], or a [T]. *)
Definition optional (t : FieldType) (p : string) (o : JsObject) : bool :=
  match o !! p with
  | Some VUndefined => true
  | Some v => hasType t v
  | None => true
  end.

(** [interface Consultant]: the objects assignable to it. [availability] is
    ["available" | "busy" | "unavailable" | string], which is [string]. *)
Definition isConsultant (o : JsObject) : bool :=
  optional TString "id" o
  && required TString "name" o
  && required TStringArray "skills" o
  && required TString "availability" o
  && optional TNumber "matchScore" o
  && optional TString "experience" o
  && optional TBoolean "hasResume" o
  && optional TString "resumeId" o.

(** The property is present and holds a value. *)
Definition present (p : string) (o : JsObject) : bool :=
  match o !! p with
  | Some VUndefined | None => false
  | Some _ => true
  end.

(** A record as the API may return it: no [id], no [experience]. *)
Definition anonymousConsultant : JsObject :=
  <["name" := VString (lit "Ada")]>
  (<["skills" := VStrings [lit "React"; lit "Node"]]>
  (<["availability" := VString (lit "available")]> ∅)).

End ConsultantType.

(** ** The matching core *)

(** *** Query Normalizer (section 4.1) *)

Module Normalizer.

(** Modelled from the spec: the Normalizer is back-end code that is not among
    the sources; section 4.1 bounds its input at 5000 characters. *)
Definition lengthBound : Z := 5000.

Inductive Error := InvalidQuery.

(** Modelled from the spec: the canonical form of section 4.1, a cleaned text
    plus the keyword tokens extracted from it. *)
Record Canonical := mkCanonical {
  text : JsString;
  keywords : list JsString
}.

Inductive Result :=
| Ok (q : Canonical)
| Err (e : Error).

Definition isUpper (c : N) : bool := ((65 <=? c) && (c <=? 90))%N.

(** Modelled from the spec: "lower-cased". The spec names no alphabet; the
    letters A..Z are folded and every other code unit is kept. *)
Definition toLower (c : N) : N := if isUpper c then (c + 32)%N else c.

Definition lowerCase (s : JsString) : JsString := List.map toLower s.

Definition space : N := 32%N.

(** Modelled from the spec: "whitespace-collapsed". Every maximal run of
    white space becomes one space; [afterWs] tells that the previous
    character was white space. The spec asks for no trimming. *)
Fixpoint collapseFrom (afterWs : bool) (s : JsString) : JsString :=
  match s with
  | [] => []
  | c :: s' =>
      if isWhiteSpace c
      then (if afterWs then collapseFrom true s' else space :: collapseFrom true s')
      else c :: collapseFrom false s'
  end.

Definition collapse (s : JsString) : JsString := collapseFrom false s.

(** Modelled from the spec: the tokens of section 4.1, which names no
    tokenizer: the words of a text are its maximal runs of characters that are
    not white space; [cur] is the word being read, reversed. *)
Fixpoint wordsFrom (cur : JsString) (s : JsString) : list JsString :=
  match s with
  | [] => if truthy cur then [rev cur] else []
  | c :: s' =>
      if isWhiteSpace c
      then (if truthy cur then rev cur :: wordsFrom [] s' else wordsFrom [] s')
      else wordsFrom (c :: cur) s'
  end.

Definition words (s : JsString) : list JsString := wordsFrom [] s.

Definition isStopword (stopwords : list JsString) (w : JsString) : bool :=
  bool_decide (w ∈ stopwords).

(** Modelled from the spec: "an extracted set of keyword tokens (stopwords
    removed, deduplicated)"; the stopword list is a parameter. *)
Definition extractKeywords (stopwords : list JsString) (t : JsString) : list JsString :=
  remove_dups (List.filter (fun w => negb (isStopword stopwords w)) (words t)).

Definition canonical (stopwords : list JsString) (raw : JsString) : Canonical :=
  let t := collapse (lowerCase raw) in
  mkCanonical t (extractKeywords stopwords t).

(** Modelled from the spec: "Fails with InvalidQuery when input is empty or
    exceeds the length bound." *)
Definition normalize (stopwords : list JsString) (raw : JsString) : Result :=
  if negb (truthy raw) || (lengthBound <? Z.of_nat (length raw))%Z
  then Err InvalidQuery
  else Ok (canonical stopwords raw).

(** No upper-case letter is left. *)
Definition lowerCased (t : JsString) : bool :=
  forallb (fun c => negb (isUpper c)) t.

(** White space occurs only as single spaces. *)
Fixpoint singleSpacedFrom (afterWs : bool) (t : JsString) : bool :=
  match t with
  | [] => true
  | c :: t' =>
      if isWhiteSpace c
      then negb afterWs && (c =? space)%N && singleSpacedFrom true t'
      else singleSpacedFrom false t'
  end.

(** The shape of a canonical text. *)
Definition isCanonicalText (t : JsString) : bool :=
  lowerCased t && singleSpacedFrom false t.

End Normalizer.

(** *** Scorer (section 4.2) *)

Module Scorer.

Import Normalizer.

Inductive Availability :=
| available
| busy
| unavailable
| otherAvailability (s : JsString).

(** Modelled from the spec: the strict Consultant shape of section 3, as the
    core sees it after validation at the adapter boundary. *)
Record Consultant := mkConsultant {
  id : JsString;
  name : JsString;
  skills : list JsString;
  availability : Availability;
  experience : JsString;
  education : JsString;
  resume : option JsString
}.

(** Modelled from the spec: the weights and increments section 4.2 leaves
    configurable. *)
Record Policy := mkPolicy {
  wSemantic : Q;
  wStructured : Q;
  wAvailability : Q;
  exactIncrement : Q;
  substringIncrement : Q;
  busyLevel : Q;
  unavailableLevel : Q;
  otherLevel : Q
}.

(** The defaults section 4.2 states (0.5, 0.35, 0.15), with increments and
    availability levels chosen within its constraints. *)
Definition defaultPolicy : Policy :=
  mkPolicy (1 # 2) (35 # 100) (15 # 100) (1 # 2) (1 # 4) (1 # 2) 0 0.

Definition inUnit (q : Q) : Prop := (0 <= q /\ q <= 1)%Q.

(** What section 4.2 asks of a policy: non-negative weights summing to one,
    an exact match worth more than a substring match, and availability
    levels that do not exceed the full weight of "available". *)
Record validPolicy (p : Policy) : Prop := mkValid {
  wSemantic_nonneg : (0 <= wSemantic p)%Q;
  wStructured_nonneg : (0 <= wStructured p)%Q;
  wAvailability_nonneg : (0 <= wAvailability p)%Q;
  weights_sum : (wSemantic p + wStructured p + wAvailability p == 1)%Q;
  substring_pos : (0 < substringIncrement p)%Q;
  exact_higher : (substringIncrement p < exactIncrement p)%Q;
  busy_unit : inUnit (busyLevel p);
  unavailable_unit : inUnit (unavailableLevel p);
  unavailable_reduced : (unavailableLevel p <= busyLevel p)%Q;
  other_unit : inUnit (otherLevel p)
}.

Definition isPositive (q : Q) : bool := negb (Qle_bool q 0).

(** Clamp to [[0,1]]. *)
Definition clampUnit (q : Q) : Q :=
  if Qle_bool q 0 then 0%Q else if Qle_bool 1 q then 1%Q else q.

Fixpoint isPrefixOf (p s : JsString) : bool :=
  match p, s with
  | [], _ => true
  | _ :: _, [] => false
  | a :: p', b :: s' => (a =? b)%N && isPrefixOf p' s'
  end.

Fixpoint isInfixOf (p s : JsString) : bool :=
  isPrefixOf p s || match s with [] => false | _ :: s' => isInfixOf p s' end.

Inductive MatchKind := ExactMatch | SubstringMatch.

(** Modelled from the spec: step 2, "an equal-or-fuzzy-matching skill exists
    in the consultant's skill set"; equality is case-insensitive, the fuzzy
    match is containment either way. *)
Definition matchSkill (keyword : JsString) (consultantSkills : list JsString) : option MatchKind :=
  let k := lowerCase keyword in
  let ss := List.map lowerCase consultantSkills in
  if existsb (fun s => bool_decide (s = k)) ss then Some ExactMatch
  else if existsb (fun s => isInfixOf k s || isInfixOf s k) ss then Some SubstringMatch
  else None.

Definition increment (p : Policy) (m : option MatchKind) : Q :=
  match m with
  | Some ExactMatch => exactIncrement p
  | Some SubstringMatch => substringIncrement p
  | None => 0%Q
  end.

Definition sumQ (l : list Q) : Q := foldr Qplus 0%Q l.

(** Modelled from the spec: step 2 of section 4.2, the saturating sum of the
    increments, capped at 1. *)
Definition structured (p : Policy) (kws : list JsString) (c : Consultant) : Q :=
  clampUnit (sumQ (List.map (fun k => increment p (matchSkill k (skills c))) kws)).

(** Modelled from the spec: step 3 of section 4.2, the availability
    component; "available" has full weight. *)
Definition availabilityLevel (p : Policy) (a : Availability) : Q :=
  match a with
  | available => 1%Q
  | busy => busyLevel p
  | unavailable => unavailableLevel p
  | otherAvailability _ => otherLevel p
  end.

Inductive Reason :=
| SemanticReason (similarity : Q)
| SkillReason (kind : MatchKind) (skill : JsString)
| AvailabilityReason (a : Availability).

Record ScoredCandidate := mkScored {
  consultant : Consultant;
  score : Q;
  reasons : list Reason
}.

(** Modelled from the spec: "reasons for every non-zero contribution", for
    the matched skills. *)
Definition skillReasons (p : Policy) (kws : list JsString) (c : Consultant) : list Reason :=
  flat_map (fun k =>
    match matchSkill k (skills c) with
    | Some m => if isPositive (wStructured p * increment p (Some m)) then [SkillReason m k] else []
    | None => []
    end) kws.

(** Modelled from the spec: the Scorer of section 4.2. [similarity] is what
    the Profile Store Adapter reports for the pair; step 1 normalizes it to
    [[0,1]], step 4 takes the weighted sum, and a reason is returned for every
    non-zero contribution. *)
Definition scoreCandidate (p : Policy) (q : Canonical) (similarity : Q) (c : Consultant) : ScoredCandidate :=
  let sem := clampUnit similarity in
  let str := structured p (keywords q) c in
  let ava := availabilityLevel p (availability c) in
  mkScored c
    (wSemantic p * sem + wStructured p * str + wAvailability p * ava)%Q
    ((if isPositive (wSemantic p * sem) then [SemanticReason sem] else [])
     ++ skillReasons p (keywords q) c
     ++ (if isPositive (wAvailability p * ava) then [AvailabilityReason (availability c)] else [])).

(** The scenario of section 8: a React developer is asked for; one
    consultant knows React and Node, the other Python; both are available. *)
Definition reactQuery : Canonical :=
  canonical [lit "a"; lit "need"] (lit "Need a React developer available immediately").
Definition reactConsultant : Consultant :=
  mkConsultant (lit "c1") (lit "Ann") [lit "React"; lit "Node"] available [] [] None.
Definition pythonConsultant : Consultant :=
  mkConsultant (lit "c2") (lit "Bob") [lit "Python"] available [] [] None.

End Scorer.

(** *** Ranker (section 4.3) *)

Module Ranker.

Import Scorer.

(** A candidate tagged with its position in the input sequence. *)
Definition Indexed : Type := nat * ScoredCandidate.

Definition scoreOf (x : Indexed) : Q := score (snd x).
Definition idOf (x : Indexed) : JsString := id (consultant (snd x)).

Fixpoint indexFrom (i : nat) (l : list ScoredCandidate) : list Indexed :=
  match l with
  | [] => []
  | c :: l' => (i, c) :: indexFrom (S i) l'
  end.

(** Modelled from the spec: the stable tie-break of section 4.3. [x] comes
    from before every element of [l] in the input, so it goes in front of the
    first element that does not beat it. *)
Fixpoint insertDesc (x : Indexed) (l : list Indexed) : list Indexed :=
  match l with
  | [] => [x]
  | y :: l' =>
      if Qle_bool (scoreOf y) (scoreOf x) then x :: y :: l'
      else y :: insertDesc x l'
  end.

(** Modelled from the spec: "ordered descending by composite score", stable.
    The insertion reads scores only, never the positions. *)
Definition sortDesc (l : list Indexed) : list Indexed := foldr insertDesc [] l.

(** Modelled from the spec: "deduplicates by consultant id": the first entry
    met for an id survives. *)
Fixpoint dedupById (seen : list JsString) (l : list Indexed) : list Indexed :=
  match l with
  | [] => []
  | x :: l' =>
      if bool_decide (idOf x ∈ seen) then dedupById seen l'
      else x :: dedupById (idOf x :: seen) l'
  end.

Definition rankIndexed (K : nat) (l : list ScoredCandidate) : list Indexed :=
  take K (dedupById [] (sortDesc (indexFrom 0 l))).

(** Modelled from the spec: the Ranker of section 4.3: order descending by
    composite score with a stable tie-break, keep one entry per consultant
    id (after the sort the first is the highest-scoring), return the top K. *)
Definition rank (K : nat) (l : list ScoredCandidate) : list ScoredCandidate :=
  snd <$> rankIndexed K l.

(** [x] is ranked above [y]: its score is at least as high, and on equal
    scores it came first in the input. *)
Definition precedes (x y : Indexed) : Prop :=
  (scoreOf y <= scoreOf x)%Q /\ ((scoreOf x == scoreOf y)%Q -> fst x < fst y).

End Ranker.

(** *** Team Assembler (section 4.5) *)

Module TeamAssembler.

Import Scorer.

Inductive Outcome :=
| NoMatch
| Assigned (consultantId : JsString) (repeated : bool).

Record RoleResult := mkResult {
  roleTitle : JsString;
  outcome : Outcome;
  alternates : list JsString
}.

Definition candidateIds (ranked : list ScoredCandidate) : list JsString :=
  List.map (fun sc => id (consultant sc)) ranked.

Definition isFree (taken : list JsString) (c : JsString) : bool :=
  negb (bool_decide (c ∈ taken)).

(** The best candidate of the pool that no earlier role holds. *)
Definition firstFree (taken pool : list JsString) : option JsString :=
  List.find (isFree taken) pool.

(** Runner-ups: the next candidates of the pool, the assigned one left out. *)
Definition runnerUps (n : nat) (chosen : JsString) (pool : list JsString) : list JsString :=
  take n (List.filter (fun c => negb (bool_decide (c = chosen))) pool).

(** Modelled from the spec: a role under reconciliation, with its title, the
    ranked pool the pipeline returned for it, and what it has been given. *)
Record Seat := mkSeat {
  seatTitle : JsString;
  seatPool : list JsString;
  seatOutcome : Outcome
}.

Definition seatHolds (s : Seat) : option JsString :=
  match seatOutcome s with
  | Assigned c _ => Some c
  | NoMatch => None
  end.

(** The consultants the roles seated so far hold. *)
Definition heldIds (seats : list Seat) : list JsString := omap seatHolds seats.

(** Modelled from the spec: section 8 allows no shared consultant while
    either role has an unassigned alternate. [findReseat taken c seats] looks
    for a role that holds [c] and has a candidate nobody holds: its position
    and its best such candidate. *)
Fixpoint findReseat (taken : list JsString) (c : JsString) (seats : list Seat)
    : option (nat * JsString) :=
  match seats with
  | [] => None
  | s :: rest =>
      match (if bool_decide (seatHolds s = Some c)
             then firstFree taken (seatPool s) else None) with
      | Some d => Some (0, d)
      | None =>
          match findReseat taken c rest with
          | Some (k, d) => Some (S k, d)
          | None => None
          end
      end
  end.

(** Modelled from the spec: the role at position [k] moves to its alternate
    [d], which is then no repeat. *)
Definition reseatAt (k : nat) (d : JsString) (seats : list Seat) : list Seat :=
  match seats !! k with
  | Some s => <[k := mkSeat (seatTitle s) (seatPool s) (Assigned d false)]> seats
  | None => seats
  end.

(** Modelled from the spec: the reconciliation of sections 4.5 and 8 for one
    role against the roles seated before it. The role takes the best
    candidate of its pool that nobody holds (the fall-through of 4.5); with
    an empty pool it is reported as no match; with a pool that is otherwise
    exhausted it takes its top candidate, and the role holding that candidate
    moves to a free alternate of its own if it has one; only when it has none
    is the assignment a repeat, which 4.5 permits, and it is flagged. *)
Definition seatRole (seats : list Seat) (roleName : JsString) (pool : list JsString)
    : list Seat :=
  let taken := heldIds seats in
  match firstFree taken pool with
  | Some c => seats ++ [mkSeat roleName pool (Assigned c false)]
  | None =>
      match pool with
      | [] => seats ++ [mkSeat roleName pool NoMatch]
      | c :: _ =>
          match findReseat taken c seats with
          | Some (k, d) => reseatAt k d seats ++ [mkSeat roleName pool (Assigned c false)]
          | None => seats ++ [mkSeat roleName pool (Assigned c true)]
          end
      end
  end.

(** Modelled from the spec: the roles are reconciled in their order. *)
Definition reconcile (pools : list (JsString * list JsString)) : list Seat :=
  fold_left (fun seats p => seatRole seats (fst p) (snd p)) pools [].

(** Modelled from the spec: the result reported for a role, the consultant
    it holds (or no match) "plus a small number of runner-up alternates". *)
Definition toResult (n : nat) (s : Seat) : RoleResult :=
  mkResult (seatTitle s) (seatOutcome s)
    (match seatHolds s with
     | Some c => runnerUps n c (seatPool s)
     | None => []
     end).

(** What reconciliation never changes of a role. *)
Definition seatKey (s : Seat) : JsString * list JsString := (seatTitle s, seatPool s).

(** The title and the pool of each role, from the pipeline. *)
Definition rolePools (pipeline : Chat.RoleSpec -> list ScoredCandidate)
    (roleSpecs : list Chat.RoleSpec) : list (JsString * list JsString) :=
  (fun r => (Chat.title r, candidateIds (pipeline r))) <$> roleSpecs.

(** Modelled from the spec: the Team Assembler of section 4.5. The
    Scorer+Ranker pipeline runs once per role, the roles are then reconciled
    in order, and each is reported with its consultant (or no match) and its
    runner-ups. *)
Definition assembleTeam (pipeline : Chat.RoleSpec -> list ScoredCandidate)
    (maxAlternates : nat) (roleSpecs : list Chat.RoleSpec) : list RoleResult :=
  toResult maxAlternates <$> reconcile (rolePools pipeline roleSpecs).

(** The consultant a role was given, if any. *)
Definition assignedTo (r : RoleResult) : option JsString :=
  match outcome r with
  | Assigned c _ => Some c
  | NoMatch => None
  end.

(** The consultants given to the roles of [rs]. *)
Definition assignedIds (rs : list RoleResult) : list JsString := omap assignedTo rs.

(** What reconciliation keeps true of the roles seated so far, [held] being
    the consultants in use: a role holds a candidate of its own pool, and
    every candidate it ranks higher is in use; it is without a match exactly
    when its pool is empty; a flagged role repeats a consultant that a role
    before it holds; and when two roles hold the same consultant the later
    one is flagged and neither pool has a candidate out of use. *)
Record ReconciledIn (held : list JsString) (seats : list Seat) : Prop := mkReconciled {
  rec_pool : forall j s c,
    seats !! j = Some s -> seatHolds s = Some c -> c ∈ seatPool s;
  rec_best : forall j s c,
    seats !! j = Some s -> seatHolds s = Some c ->
    exists pre post, seatPool s = pre ++ c :: post /\ forall d, d ∈ pre -> d ∈ held;
  rec_nomatch : forall j s,
    seats !! j = Some s -> (seatOutcome s = NoMatch <-> seatPool s = []);
  rec_flag : forall j s c,
    seats !! j = Some s -> seatOutcome s = Assigned c true ->
    exists i si, i < j /\ seats !! i = Some si /\ seatHolds si = Some c;
  rec_share : forall i j si sj c,
    i < j -> seats !! i = Some si -> seats !! j = Some sj ->
    seatHolds si = Some c -> seatHolds sj = Some c ->
    seatOutcome sj = Assigned c true
    /\ forall d, d ∈ seatPool si \/ d ∈ seatPool sj -> d ∈ held
}.

(** A two-role request: a front-end role whose pool ranks Ann above Bob,
    and a back-end role whose pool holds Ann only. *)
Definition ann : ScoredCandidate :=
  mkScored (mkConsultant (lit "c1") (lit "Ann") [lit "React"; lit "Python"] available [] [] None)
    (9 # 10) [AvailabilityReason available].
Definition bob : ScoredCandidate :=
  mkScored (mkConsultant (lit "c2") (lit "Bob") [lit "React"] available [] [] None)
    (7 # 10) [AvailabilityReason available].
Definition frontend : Chat.RoleSpec :=
  Chat.mkRoleSpec (lit "Frontend") [lit "React"] None [].
Definition backend : Chat.RoleSpec :=
  Chat.mkRoleSpec (lit "Backend") [lit "Python"] None [].
Definition samplePipeline (r : Chat.RoleSpec) : list ScoredCandidate :=
  if bool_decide (Chat.title r = lit "Frontend") then [ann; bob] else [ann].

(** A three-role request in which every role ranks Ann above Bob. *)
Definition fullstack : Chat.RoleSpec :=
  Chat.mkRoleSpec (lit "Fullstack") [lit "React"; lit "Python"] None [].
Definition sharedPipeline (r : Chat.RoleSpec) : list ScoredCandidate := [ann; bob].

End TeamAssembler.

(** ** The rest of the chat component (ChatInterface.tsx) *)

Module ChatUi.

Import Chat.

Inductive Key := Enter | OtherKey.

(** What [handleKeyDown] reads of a keyboard event. *)
Record KeyboardEvent := mkKeyboard { key : Key; shiftKey : bool }.

(** [handleKeyDown]: Enter without Shift sends. *)
Definition handleKeyDown (sendChatMessage : Capability) (e : KeyboardEvent) : Eff unit :=
  match key e with
  | Enter => if negb (shiftKey e) then handleSend sendChatMessage else ret tt
  | OtherKey => ret tt
  end.

(** The [disabled] attribute of the Send button. *)
Definition sendDisabled (st : ChatState) : bool :=
  loading st || negb (truthy (trim (input st))).

(** The [disabled] attribute of the input box. *)
Definition inputDisabled (st : ChatState) : bool := loading st.

(** The button's [onClick]; a disabled button dispatches no click. *)
Definition onClick (sendChatMessage : Capability) : Eff unit :=
  fun st => if sendDisabled st then ret tt st else handleSend sendChatMessage st.

Definition flipRole (r : Role) : Role :=
  match r with user => assistant | assistant => user end.

Definition sameRole (a b : Role) : bool :=
  match a, b with
  | user, user | assistant, assistant => true
  | _, _ => false
  end.

(** The messages take turns, [next] speaking first. *)
Fixpoint alternates (next : Role) (ms : list ChatMessage) : bool :=
  match ms with
  | [] => true
  | m :: ms' => sameRole (role m) next && alternates (flipRole next) ms'
  end.

(** No white space at either end. *)
Definition edgesVisible (s : JsString) : bool :=
  match s with
  | [] => true
  | c :: _ => negb (isWhiteSpace c) && negb (isWhiteSpace (List.last s c))
  end.

(** A user bubble holds a non-empty text with no white space around it. *)
Definition wellFormedMessage (m : ChatMessage) : bool :=
  match role m with
  | user => truthy (content m) && edgesVisible (content m)
  | assistant => true
  end.

(** The shape the history keeps: the greeting first, the speakers taking
    turns, and the assistant speaking last. *)
Definition historyShape (ms : list ChatMessage) : Prop :=
  head ms = Some greeting
  /\ alternates assistant ms = true
  /\ Nat.odd (length ms) = true
  /\ (exists m, last ms = Some m /\ role m = assistant)
  /\ forallb wellFormedMessage ms = true.

(** Some response of the capability was flagged complete and carried [rs]. *)
Definition offered (cap : Capability) (rs : list RoleSpec) : Prop :=
  exists h r, cap h = Fulfilled r /\ isComplete r = true /\ roles r = Some rs.

(** Every completion pending or reached was offered by the capability. *)
Definition completionsOffered (cap : Capability) (st : ChatState) : Prop :=
  (forall rs, rs ∈ timers st -> offered cap rs)
  /\ (forall rs, route st = ResultsRoute rs -> offered cap rs).

End ChatUi.

(** ** [handleSend] with its request in flight (ChatInterface.tsx) *)

Module ChatAsync.

Import Chat ChatUi.

(** The component with the request of a turn possibly in flight: [pending]
    holds the [newMessages] of the handler's closure from the call of
    [sendChatMessage] until its promise settles. *)
Record InFlight := mkInFlight {
  ui : ChatState;
  pending : option (list ChatMessage)
}.

(** [handleSend] up to its [await]. *)
Definition sendStart (a : InFlight) : InFlight :=
  let st0 := ui a in
  if negb (truthy (trim (input st0))) || loading st0 then a
  else
    let userMessage := mkMessage user (trim (input st0)) in
    let newMessages := messages st0 ++ [userMessage] in
    mkInFlight
      (snd ((setMessages newMessages ;; setInput [] ;; setLoading true) st0))
      (Some newMessages).

(** [handleSend] from its [await] on: the [try] body after the call, the
    [catch] and the [finally], for what the promise settled to. *)
Definition sendSettle (settled : Settled ChatResponse) (newMessages : list ChatMessage)
    : Eff unit :=
  (match settled with
   | Fulfilled response =>
       let assistantMessage := mkMessage assistant (resContent response) in
       setMessages (newMessages ++ [assistantMessage]) ;;
       match isComplete response, roles response with
       | true, Some rs => setTimeoutOnComplete rs
       | _, _ => ret tt
       end
   | RejectedWith error =>
       consoleError error ;;
       let errorMessage := mkMessage assistant (lit "Error: " ++ errorText error) in
       setMessages (newMessages ++ [errorMessage])
   end) ;;
  setLoading false.

(** The pending promise settles, to what the capability answers to the
    history it was sent. *)
Definition settle (cap : Capability) (a : InFlight) : InFlight :=
  match pending a with
  | Some newMessages =>
      mkInFlight (snd (sendSettle (cap newMessages) newMessages (ui a))) None
  | None => a
  end.

(** What happens to the component, the settling of the request apart from
    its sending. A request that never settles is a sequence without
    [AsyncSettle]. *)
Inductive AsyncEvent :=
| AsyncInput (v : JsString)
| AsyncSend
| AsyncSettle
| AsyncTimer.

Definition asyncStep (cap : Capability) (ev : AsyncEvent) (a : InFlight) : InFlight :=
  match ev with
  | AsyncInput v => mkInFlight (snd (setInput v (ui a))) (pending a)
  | AsyncSend => sendStart a
  | AsyncSettle => settle cap a
  | AsyncTimer => mkInFlight (snd (fireTimer (ui a))) (pending a)
  end.

Definition asyncRun (cap : Capability) (evs : list AsyncEvent) (a : InFlight) : InFlight :=
  fold_left (fun a ev => asyncStep cap ev a) evs a.

Definition asyncInitial : InFlight := mkInFlight initialState None.

(** The shape the history keeps, in flight and at rest: the greeting first
    and the speakers taking turns; while a request is pending the history is
    the one that was sent, of even length, with the user's message last and
    [loading] set; otherwise [loading] is off, the length is odd and the
    assistant spoke last. *)
Definition turnShape (a : InFlight) : Prop :=
  let ms := messages (ui a) in
  head ms = Some greeting
  /\ alternates assistant ms = true
  /\ match pending a with
     | Some sent =>
         loading (ui a) = true /\ ms = sent /\ Nat.even (length ms) = true
         /\ exists m, last ms = Some m /\ role m = user
     | None =>
         loading (ui a) = false /\ Nat.odd (length ms) = true
         /\ exists m, last ms = Some m /\ role m = assistant
     end.

End ChatAsync.

(** ** The overview column of the chat page (ChatPage.tsx) *)

Module ChatPage.

Import Chat.

(** One entry of [topSkills], with the fields the page renders. *)
Record SkillCount := mkSkillCount { skill : JsString; count : Z }.

(** [OverviewData], with the fields of the fallback object of
    [fetchOverview]. *)
Record OverviewData := mkOverview {
  cvCount : Z;
  uniqueSkillsCount : Z;
  topSkills : list SkillCount
}.

Inductive Mode := assemble | find.

Record PageState := mkPage {
  overview : option OverviewData;
  loadingOverview : bool;
  mode : Mode;
  pageErrors : list Thrown
}.

(** [useState(null)], [useState(true)], [useState("assemble")]. *)
Definition initialPage : PageState := mkPage None true assemble [].

Definition setOverview (d : OverviewData) (st : PageState) : PageState :=
  mkPage (Some d) (loadingOverview st) (mode st) (pageErrors st).
Definition setLoadingOverview (b : bool) (st : PageState) : PageState :=
  mkPage (overview st) b (mode st) (pageErrors st).
Definition setMode (m : Mode) (st : PageState) : PageState :=
  mkPage (overview st) (loadingOverview st) m (pageErrors st).
Definition logError (e : Thrown) (st : PageState) : PageState :=
  mkPage (overview st) (loadingOverview st) (mode st) (pageErrors st ++ [e]).

(** The object set when [getOverview] fails. *)
Definition fallbackOverview : OverviewData := mkOverview 0 0 [].

(** [fetchOverview], given what [getOverview()] settles to. *)
Definition fetchOverview (settled : Settled OverviewData) (st : PageState) : PageState :=
  let st1 := setLoadingOverview true st in
  let st2 :=
    match settled with
    | Fulfilled data => setOverview data st1
    | RejectedWith error => setOverview fallbackOverview (logError error st1)
    end in
  setLoadingOverview false st2.

(** A row of the "Top 10 Skills" list. *)
Record SkillRow := mkRow { rowSkill : JsString; rowCount : Z; rowUnit : JsString }.

(** [{skillCount.count === 1 ? "person" : "people"}] *)
Definition unitOf (n : Z) : JsString :=
  if (n =? 1)%Z then lit "person" else lit "people".

Definition rowOf (sc : SkillCount) : SkillRow :=
  mkRow (skill sc) (count sc) (unitOf (count sc)).

Inductive SkillsPanel :=
| SkillRows (rows : list SkillRow)
| NoSkillsAvailable.

Inductive OverviewColumn :=
| OverviewSkeleton
| OverviewCard (totalCVs : Z) (panel : SkillsPanel).

(** The right-hand column: the skeleton while loading, else the card with
    [overview?.cvCount ?? 0] and the skill list, or "No skills available"
    when [topSkills] is missing or empty. *)
Definition renderOverview (st : PageState) : OverviewColumn :=
  if loadingOverview st then OverviewSkeleton
  else
    OverviewCard
      (match overview st with Some d => cvCount d | None => 0%Z end)
      (match overview st with
       | Some d =>
           if (0 <? Z.of_nat (length (topSkills d)))%Z
           then SkillRows (List.map rowOf (topSkills d))
           else NoSkillsAvailable
       | None => NoSkillsAvailable
       end).

End ChatPage.

(** ** What the description page shows (ProjectDescriptionPage) *)

Module DescriptionPageView.

Import DescriptionPage.

(** [characterCount > maxCharacters * 0.9]: the product is the double 4500,
    exactly, and the count is an integer. *)
Definition approachingLimit (description : JsString) : bool :=
  negb (Qle_bool (inject_Z (characterCount description))
                 (inject_Z maxCharacters * (9 # 10))%Q).

(** The textarea after a sequence of events. *)
Definition descriptionAfter (description : JsString) (evs : list Event) : JsString :=
  fold_left (fun d ev => fst (step d ev)) evs description.

(** The value of the last edit, or the text the page started with. *)
Fixpoint lastEdit (description : JsString) (evs : list Event) : JsString :=
  match evs with
  | [] => description
  | Edit v :: evs' => lastEdit v evs'
  | _ :: evs' => lastEdit description evs'
  end.

End DescriptionPageView.

(** ** The fields of the Consultant interface *)

Module ConsultantFields.

(** The properties [interface Consultant] declares, and the optional ones. *)
Definition declaredFields : list string :=
  ["id"; "name"; "skills"; "availability"; "matchScore"; "experience"; "hasResume"; "resumeId"].

Definition optionalFields : list string :=
  ["id"; "matchScore"; "experience"; "hasResume"; "resumeId"].

End ConsultantFields.

(** ** The shell scripts (scripts/setup.sh, the container entry point) *)

Module Scripts.

Open Scope string_scope.

(** What a script does, in order. *)
Inductive Action :=
| Echo (line : string)
| Python (script : string)
| Curl (url : string)
| Sleep (seconds : nat)
| ExecUvicorn
| Exit (code : nat).

(** The part of the environment the scripts read. *)
Record Env := mkEnv {
  dockerenvFile : bool;
  DOCKER_CONTAINER : option string;
  WEAVIATE_URL : option string;
  SEED_MOCK_DATA : option string
}.

(** [[ -n "$VAR" ]] *)
Definition nonEmpty (v : option string) : bool :=
  match v with
  | Some s => negb (String.eqb s "")
  | None => false
  end.

(** [${VAR:-default}]: the default when the variable is unset or empty. *)
Definition orDefault (v : option string) (default : string) : string :=
  match v with
  | Some s => if String.eqb s "" then default else s
  | None => default
  end.

(** The [WEAVIATE_URL] that setup.sh exports. *)
Definition resolveWeaviateUrl (env : Env) : string :=
  if dockerenvFile env || nonEmpty (DOCKER_CONTAINER env)
  then
    let url := orDefault (WEAVIATE_URL env) "http://weaviate:8080" in
    if String.eqb url "http://localhost:8080" then "http://weaviate:8080" else url
  else orDefault (WEAVIATE_URL env) "http://localhost:8080".

(** setup.sh: no [set -e], so each command runs whatever the previous one
    returned. *)
Definition setup (env : Env) : list Action :=
  [ Echo "Setting up Weaviate schema...";
    Echo ("Using Weaviate URL: " ++ resolveWeaviateUrl env);
    Python "scripts/init_weaviate.py";
    Echo "Inserting mock data...";
    Python "scripts/insert_mock_data.py";
    Echo "Setup complete!" ].

Definition max_retries : nat := 30.
Definition retry_delay : nat := 2.

Definition readyLine : string := "Weaviate is ready!".
Definition giveUpLine : string :=
  "Warning: Weaviate not ready after " ++ pretty max_retries ++ " attempts, continuing anyway...".
Definition waitingLine (attempt : nat) : string :=
  "Waiting for Weaviate... (attempt " ++ pretty attempt ++ "/" ++ pretty max_retries ++ ")".

(** The [for attempt in $(seq 1 $max_retries)] loop of the entry point;
    [ready attempt] tells whether the [curl] of that attempt succeeds. *)
Fixpoint waitForWeaviate (url : string) (ready : nat -> bool) (attempts : list nat) : list Action :=
  match attempts with
  | [] => []
  | attempt :: rest =>
      Curl (url ++ "/v1/.well-known/ready") ::
      (if ready attempt then [Echo readyLine]
       else
         (if Nat.eqb attempt max_retries then [Echo giveUpLine]
          else [Echo (waitingLine attempt); Sleep retry_delay])
         ++ waitForWeaviate url ready rest)
  end.

(** The container entry point ([set -e]); [initOk] and [seedOk] tell whether
    the two Python scripts succeed. *)
Definition entrypoint (env : Env) (ready : nat -> bool) (initOk seedOk : bool) : list Action :=
  [Echo "Starting backend initialization..."; Echo "Waiting for Weaviate to be ready..."]
  ++ waitForWeaviate (orDefault (WEAVIATE_URL env) "http://weaviate:8080") ready (seq 1 max_retries)
  ++ [Echo "Initializing Weaviate schema..."; Python "scripts/init_weaviate.py"]
  ++ (if negb initOk
      then [Echo "ERROR: Failed to initialize Weaviate schema. Exiting..."; Exit 1]
      else
        [Echo "Schema initialization successful"]
        ++ (if String.eqb (orDefault (SEED_MOCK_DATA env) "false") "true"
            then
              [Echo "Seeding mock data..."; Python "scripts/insert_mock_data.py"]
              ++ (if seedOk then [Echo "Mock data seeding successful"]
                  else [Echo "Warning: Failed to seed mock data, continuing anyway..."])
            else [])
        ++ [Echo "Starting FastAPI application..."; ExecUvicorn]).

(** The number of readiness probes in a trace, and the seconds slept. *)
Definition probes (t : list Action) : nat :=
  length (List.filter (fun a => match a with Curl _ => true | _ => false end) t).

Definition secondsSlept (t : list Action) : nat :=
  foldr (fun a n => match a with Sleep k => k + n | _ => n end) 0 t.

(** The test of setup.sh for running inside Docker. *)
Definition inDocker (env : Env) : bool :=
  dockerenvFile env || nonEmpty (DOCKER_CONTAINER env).

(** The environment after [export WEAVIATE_URL=url]. *)
Definition withUrl (env : Env) (url : string) : Env :=
  mkEnv (dockerenvFile env) (DOCKER_CONTAINER env) (Some url) (SEED_MOCK_DATA env).

End Scripts.

(** * Properties *)

(** ** JavaScript strings *)

Module JsFacts.

Lemma trimStart_nil_iff (s : JsString) :
  trimStart s = [] <-> forallb isWhiteSpace s = true.
Proof.
  induction s as [|c s IH]; simpl; [tauto|].
  destruct (isWhiteSpace c); simpl; [exact IH|].
  split; intros H; discriminate H.
Qed.

Lemma forallb_ws_rev (s : JsString) :
  forallb isWhiteSpace (rev s) = forallb isWhiteSpace s.
Proof.
  induction s as [|c s IH]; simpl; [reflexivity|].
  rewrite forallb_app, IH. simpl. rewrite andb_true_r. apply andb_comm.
Qed.

Lemma trimStart_suffix (s : JsString) : trimStart s `suffix_of` s.
Proof.
  induction s as [|c s IH]; simpl; [done|].
  destruct (isWhiteSpace c); [by apply suffix_cons_r | done].
Qed.

(** A suffix that starts with a visible character survives [trimStart]. *)
Lemma trimStart_visible (s : JsString) :
  forallb isWhiteSpace s = false -> forallb isWhiteSpace (trimStart s) = false.
Proof.
  induction s as [|c s IH]; simpl; [done|].
  destruct (isWhiteSpace c) eqn:E; simpl; [exact IH|].
  intros _. by rewrite E.
Qed.

(** [s.trim()] is truthy exactly when [s] has a character that is not
    white space. *)
Lemma truthy_trim (s : JsString) : truthy (trim s) = hasVisibleChar s.
Proof.
  unfold trim, trimEnd, hasVisibleChar.
  destruct (forallb isWhiteSpace s) eqn:E.
  - apply trimStart_nil_iff in E as Hnil. rewrite Hnil. simpl.
    symmetry. apply not_true_iff_false. intros H.
    apply existsb_exists in H as (c & Hin & Hc).
    rewrite forallb_forall in E. specialize (E c Hin).
    rewrite E in Hc. discriminate.
  - assert (Hex : existsb (fun c => negb (isWhiteSpace c)) s = true).
    { apply not_false_iff_true. intros H.
      apply not_true_iff_false in E. apply E.
      apply forallb_forall. intros c Hin.
      destruct (isWhiteSpace c) eqn:Ec; [done|].
      assert (existsb (fun c => negb (isWhiteSpace c)) s = true); [|congruence].
      apply existsb_exists. exists c. by rewrite Ec. }
    rewrite Hex.
    apply trimStart_visible in E.
    rewrite <- forallb_ws_rev in E.
    apply trimStart_visible in E.
    destruct (trimStart (rev (trimStart s))) as [|c t] eqn:Et; [discriminate E|].
    simpl. by destruct (rev t ++ [c]) eqn:Er; [destruct (rev t); discriminate|].
Qed.

End JsFacts.

(** ** The role elicitation dialogue *)

Module ChatFacts.

Import Chat JsFacts.

Lemma handleSend_guard cap st :
  isTurn st = false -> snd (handleSend cap st) = st.
Proof.
  unfold isTurn, handleSend. intros H.
  destruct (truthy (trim (input st))), (loading st); simpl in *; done.
Qed.

(** The state a turn ends in, field by field. *)
Lemma handleSend_turn cap st :
  isTurn st = true ->
  snd (handleSend cap st) =
    mkChat (sentHistory st ++ [turnReply cap st]) [] false
      (timers st ++ turnCompletion cap st)
      (consoleErrors st ++ turnErrors cap st) (route st).
Proof.
  unfold isTurn, handleSend, turnReply, turnCompletion, turnErrors, sentHistory.
  intros H. apply andb_prop in H as [Ht Hl].
  apply negb_true_iff in Hl. rewrite Ht, Hl. simpl.
  destruct (cap _) as [r|e]; simpl.
  - destruct (isComplete r), (roles r); simpl; by rewrite ?app_nil_r.
  - by rewrite app_nil_r.
Qed.

Lemma step_messages_prefix cap ev st :
  messages st `prefix_of` messages (step cap ev st).
Proof.
  destruct ev as [v| |]; simpl.
  - done.
  - destruct (isTurn st) eqn:E.
    + rewrite handleSend_turn by done. simpl. unfold sentHistory.
      rewrite <- app_assoc. by apply prefix_app_r.
    + by rewrite handleSend_guard.
  - unfold fireTimer. by destruct (timers st).
Qed.

Lemma run_messages_prefix cap evs : forall st,
  messages st `prefix_of` messages (run cap evs st).
Proof.
  induction evs as [|ev evs IH]; intros st; simpl; [done|].
  etrans; [apply (step_messages_prefix cap ev)|apply IH].
Qed.

Lemma fireTimer_idle st : timers st = [] -> snd (fireTimer st) = st.
Proof. unfold fireTimer. by intros ->. Qed.

Lemma run_timers_idle cap n : forall st,
  timers st = [] -> run cap (replicate n EvTimer) st = st.
Proof.
  induction n as [|n IH]; intros st H; simpl; [done|].
  rewrite fireTimer_idle by done. by apply IH.
Qed.

(** C8: every turn appends the user message and one assistant message (the
    reply or the error text) to the history, a send that is no turn leaves it
    alone, and along any sequence of events the earlier history stays a
    prefix of the later one: nothing is removed or rewritten. *)
Theorem history_grows_monotonically (cap : Capability) (st : ChatState) (evs : list Event) :
  messages (snd (handleSend cap st)) =
    (if isTurn st
     then messages st ++ [mkMessage user (trim (input st)); turnReply cap st]
     else messages st)
  /\ role (turnReply cap st) = assistant
  /\ messages st `prefix_of` messages (run cap evs st).
Proof.
  split; [|split].
  - destruct (isTurn st) eqn:E.
    + rewrite handleSend_turn by done. simpl. unfold sentHistory.
      by rewrite <- app_assoc.
    + by rewrite handleSend_guard.
  - unfold turnReply. by destruct (cap _).
  - apply run_messages_prefix.
Qed.

(** C7: when the capability's call fails during a turn, the error is
    reported (logged, and shown as the assistant message "Error: ..."), no
    completion is scheduled and the route does not change: the dialogue stays
    in the phase it was in, and with no timer pending it never leaves it. *)
Theorem error_turn_does_not_transition (cap : Capability) (st : ChatState) (e : Thrown) :
  isTurn st = true ->
  cap (sentHistory st) = RejectedWith e ->
  let st' := snd (handleSend cap st) in
  last (messages st') = Some (mkMessage assistant (lit "Error: " ++ errorText e))
  /\ consoleErrors st' = consoleErrors st ++ [e]
  /\ timers st' = timers st
  /\ phase st' = phase st
  /\ loading st' = false
  /\ (timers st = [] -> forall n, phase (run cap (replicate n EvTimer) st') = phase st).
Proof.
  intros Ht Hc st'. subst st'. rewrite handleSend_turn by done.
  unfold turnReply, turnCompletion, turnErrors. rewrite Hc. simpl.
  rewrite app_nil_r.
  repeat split.
  - by rewrite last_snoc.
  - intros Hnil n. by rewrite run_timers_idle.
Qed.

Lemma error_turn_does_not_transition_witness :
  phase (snd (handleSend failing (typed (lit "two developers")))) = GATHERING.
Proof.
  pose proof (error_turn_does_not_transition failing (typed (lit "two developers"))
                (ThrownError (lit "Failed to fetch")) eq_refl eq_refl) as H.
  simpl in H. destruct H as (_ & _ & _ & H & _). exact H.
Defined.

(** C1, as the code has it: a turn whose response is flagged complete and
    has a roles value schedules the completion with exactly those roles and
    looks at none of them; any other response schedules nothing. When the
    timer fires the dialogue is COMPLETE with the scheduled roles, so the
    roles carried are complete when those of the response are. *)
Theorem completion_carries_response_roles (cap : Capability) (st : ChatState) (r : ChatResponse) :
  isTurn st = true ->
  cap (sentHistory st) = Fulfilled r ->
  let st' := snd (handleSend cap st) in
  timers st' =
    timers st ++ (match isComplete r, roles r with true, Some rs => [rs] | _, _ => [] end)
  /\ phase st' = phase st
  /\ (forall rs, timers st = [] -> isComplete r = true -> roles r = Some rs ->
        phase (snd (fireTimer st')) = COMPLETE rs
        /\ (forallb roleComplete rs = true ->
            forall x, x ∈ rs -> truthy (title x) = true /\ requiredSkills x <> [])).
Proof.
  intros Ht Hc st'. subst st'. rewrite handleSend_turn by done.
  unfold turnCompletion. rewrite Hc. simpl.
  split; [reflexivity|]. split; [reflexivity|].
  intros rs Hidle Hflag Hroles. split.
  - unfold fireTimer. simpl. rewrite Hidle, Hflag, Hroles. reflexivity.
  - intros Hall x Hx%list_elem_of_In.
    rewrite forallb_forall in Hall. specialize (Hall x Hx).
    unfold roleComplete in Hall. apply andb_prop in Hall as [Htitle Hskills].
    split; [done|]. intros Hnil. rewrite Hnil in Hskills. discriminate.
Qed.

Lemma completion_carries_response_roles_witness :
  phase (snd (fireTimer (snd (handleSend (completing [backendRole]) (typed (lit "a backend developer"))))))
  = COMPLETE [backendRole].
Proof.
  pose proof (completion_carries_response_roles (completing [backendRole])
                (typed (lit "a backend developer")) _ eq_refl eq_refl) as H.
  simpl in H. destruct H as (_ & _ & H).
  destruct (H [backendRole] eq_refl eq_refl eq_refl) as [H' _]. exact H'.
Defined.

(** C1 as stated fails: a response flagged complete whose only RoleSpec has
    an empty title and zero required skills takes the dialogue from
    GATHERING to COMPLETE, carrying that RoleSpec. *)
Lemma incomplete_role_reaches_COMPLETE :
  let st := typed (lit "a team") in
  roleComplete emptyRole = false
  /\ phase st = GATHERING
  /\ phase (run (completing [emptyRole]) [EvSend; EvTimer] st) = COMPLETE [emptyRole].
Proof. repeat split. Qed.

End ChatFacts.

(** ** Query Normalizer *)

Module NormalizerFacts.

Import Normalizer JsFacts.

(** Decides the comparisons of a character against constants one at a time,
    closing the impossible side of each with [lia]. *)
Ltac char_cases :=
  repeat match goal with
  | |- context [(?a <=? ?b)%N] => destruct (N.leb_spec a b); try lia
  | |- context [(?a =? ?b)%N] => destruct (N.eqb_spec a b); try lia
  end; simpl; try reflexivity; try lia.

Lemma isUpper_range c : isUpper c = true -> (65 <= c <= 90)%N.
Proof.
  unfold isUpper. intros H. apply andb_prop in H as [H1 H2].
  apply N.leb_le in H1, H2. lia.
Qed.

Lemma upper_not_ws c : isUpper c = true -> isWhiteSpace c = false.
Proof. intros H%isUpper_range. unfold isWhiteSpace. char_cases. Qed.

Lemma lower_not_ws c : isUpper c = true -> isWhiteSpace (c + 32) = false.
Proof. intros H%isUpper_range. unfold isWhiteSpace. char_cases. Qed.

Lemma lower_not_upper c : isUpper c = true -> isUpper (c + 32) = false.
Proof. intros H%isUpper_range. unfold isUpper. char_cases. Qed.

Lemma isWhiteSpace_toLower c : isWhiteSpace (toLower c) = isWhiteSpace c.
Proof.
  unfold toLower. destruct (isUpper c) eqn:E; [|done].
  by rewrite lower_not_ws, upper_not_ws.
Qed.

Lemma isUpper_toLower c : isUpper (toLower c) = false.
Proof.
  unfold toLower. destruct (isUpper c) eqn:E; [|done].
  by apply lower_not_upper.
Qed.

Lemma toLower_fixed c : isUpper c = false -> toLower c = c.
Proof. unfold toLower. by intros ->. Qed.

Lemma space_ws : isWhiteSpace space = true.
Proof. reflexivity. Qed.

Lemma lowerCased_lowerCase s : lowerCased (lowerCase s) = true.
Proof.
  unfold lowerCased, lowerCase. apply forallb_forall. intros c Hin.
  apply in_map_iff in Hin as (c0 & <- & _). by rewrite isUpper_toLower.
Qed.

Lemma lowerCase_fixed t : lowerCased t = true -> lowerCase t = t.
Proof.
  unfold lowerCased, lowerCase. induction t as [|c t IH]; simpl; [done|].
  intros H. apply andb_prop in H as [Hc Ht]. apply negb_true_iff in Hc.
  by rewrite toLower_fixed, IH.
Qed.

Lemma lowerCased_collapseFrom b s :
  lowerCased s = true -> lowerCased (collapseFrom b s) = true.
Proof.
  unfold lowerCased. revert b. induction s as [|c s IH]; intros b; simpl; [done|].
  intros H. apply andb_prop in H as [Hc Hs].
  destruct (isWhiteSpace c); [destruct b|]; simpl.
  - by apply IH.
  - change (isUpper space) with false. simpl. by apply IH.
  - rewrite Hc. simpl. by apply IH.
Qed.

Lemma singleSpaced_collapseFrom b s : singleSpacedFrom b (collapseFrom b s) = true.
Proof.
  revert b. induction s as [|c s IH]; intros b; simpl; [done|].
  destruct (isWhiteSpace c) eqn:E.
  - destruct b; [apply IH|]. simpl. apply IH.
  - simpl. rewrite E. apply IH.
Qed.

Lemma collapseFrom_fixed b t :
  singleSpacedFrom b t = true -> collapseFrom b t = t.
Proof.
  revert b. induction t as [|c t IH]; intros b; simpl; [done|].
  destruct (isWhiteSpace c).
  - intros H. apply andb_prop in H as [H Ht]. apply andb_prop in H as [Hb Hc].
    apply negb_true_iff in Hb. subst b. apply N.eqb_eq in Hc. subst c.
    by rewrite IH.
  - intros H. by rewrite IH.
Qed.

(** The text of a canonical form has the canonical shape. *)
Lemma canonical_text_shape sw raw : isCanonicalText (text (canonical sw raw)) = true.
Proof.
  unfold isCanonicalText, canonical, collapse. simpl. apply andb_true_intro. split.
  - apply lowerCased_collapseFrom, lowerCased_lowerCase.
  - apply singleSpaced_collapseFrom.
Qed.

(** A text of canonical shape is its own canonical text. *)
Lemma canonical_text_fixed t :
  isCanonicalText t = true -> collapse (lowerCase t) = t.
Proof.
  unfold isCanonicalText, collapse. intros H. apply andb_prop in H as [Hl Hs].
  rewrite lowerCase_fixed by done. by apply collapseFrom_fixed.
Qed.

Lemma collapseFrom_length b s : length (collapseFrom b s) <= length s.
Proof.
  revert b. induction s as [|c s IH]; intros b; simpl; [lia|].
  destruct (isWhiteSpace c); [destruct b|]; simpl;
    [specialize (IH true)|specialize (IH true)|specialize (IH false)]; lia.
Qed.

Lemma collapse_truthy s : truthy (collapse s) = truthy s.
Proof. unfold collapse. destruct s as [|c s]; simpl; [done|]. by destruct (isWhiteSpace c). Qed.

Lemma lowerCase_length s : length (lowerCase s) = length s.
Proof. apply length_map. Qed.

Lemma lowerCase_truthy s : truthy (lowerCase s) = truthy s.
Proof. by destruct s. Qed.

Lemma truthy_false_iff (s : JsString) : truthy s = false <-> s = [].
Proof. destruct s; simpl; split; congruence. Qed.

(** Every word read by [wordsFrom] is either the pending one or made of
    characters of the text, and has no white space if the pending one has
    none. *)
Lemma wordsFrom_visible s : forall cur w,
  forallb (fun c => negb (isWhiteSpace c)) cur = true ->
  w ∈ wordsFrom cur s ->
  w <> [] /\ forallb (fun c => negb (isWhiteSpace c)) w = true.
Proof.
  induction s as [|c s IH]; intros cur w Hcur; simpl.
  - destruct cur as [|a cur]; simpl; [by intros H%elem_of_nil|].
    intros ->%list_elem_of_singleton. split.
    + simpl. by destruct (rev cur).
    + change (rev cur ++ [a]) with (rev (a :: cur)).
      apply forallb_forall. intros x Hx%in_rev.
      rewrite forallb_forall in Hcur. by apply Hcur.
  - destruct (isWhiteSpace c) eqn:E.
    + destruct cur as [|a cur]; simpl.
      * by apply IH.
      * intros [->|H]%elem_of_cons; [|by apply (IH [])].
        split.
        -- by destruct (rev cur).
        -- change (rev cur ++ [a]) with (rev (a :: cur)).
           apply forallb_forall. intros x Hx%in_rev.
           rewrite forallb_forall in Hcur. by apply Hcur.
    + apply IH. simpl. by rewrite E.
Qed.

Lemma extractKeywords_spec sw t w :
  w ∈ extractKeywords sw t <-> w ∈ words t /\ w ∉ sw.
Proof.
  unfold extractKeywords. rewrite elem_of_remove_dups, !list_elem_of_In, filter_In.
  rewrite <- !list_elem_of_In. unfold isStopword.
  rewrite negb_true_iff, bool_decide_eq_false. done.
Qed.

(** C2: the Normalizer fails, with InvalidQuery, exactly on the empty text
    and on texts longer than the bound; on every other text it returns the
    canonical form: a lower-cased text whose white space is single spaces,
    and keywords without duplicates or stopwords, each a word of that text.
    [normalize] is a function of its arguments and touches no state. *)
Theorem normalize_fails_exactly_when_invalid (sw : list JsString) (raw : JsString) :
  (normalize sw raw = Err InvalidQuery
     <-> raw = [] \/ (lengthBound < Z.of_nat (length raw))%Z)
  /\ (normalize sw raw = Err InvalidQuery \/
      exists q, normalize sw raw = Ok q
        /\ q = canonical sw raw
        /\ isCanonicalText (text q) = true
        /\ length (text q) <= length raw
        /\ NoDup (keywords q)
        /\ (forall w, w ∈ keywords q <-> w ∈ words (text q) /\ w ∉ sw)
        /\ (forall w, w ∈ keywords q -> w <> [] /\ hasVisibleChar w = true)).
Proof.
  unfold normalize.
  destruct (truthy raw) eqn:Et; simpl.
  - destruct (Z.ltb_spec lengthBound (Z.of_nat (length raw))) as [Hl|Hl].
    + split; [|by left]. split; [by right | done].
    + split.
      * split; [done|]. intros [->|H]; [done | lia].
      * right. exists (canonical sw raw).
        split; [reflexivity|]. split; [reflexivity|].
        split; [apply canonical_text_shape|].
        split.
        { simpl. etrans; [apply collapseFrom_length|]. by rewrite lowerCase_length. }
        split; [apply NoDup_remove_dups|].
        split; [intros w; apply extractKeywords_spec|].
        intros w [Hw _]%extractKeywords_spec.
        apply (wordsFrom_visible _ [] w) in Hw as [Hne Hv]; [|done].
        split; [done|].
        unfold hasVisibleChar. destruct w as [|c w]; [done|].
        simpl in *. by apply andb_prop in Hv as [-> _].
  - apply truthy_false_iff in Et. subst raw. split; [|by left].
    split; [by left | done].
Qed.

(** C6: normalizing the text of a canonical form gives that canonical form
    again, text and keywords unchanged; and any valid text that already
    has the canonical shape is returned as it is. *)
Theorem normalize_idempotent (sw : list JsString) (raw : JsString) (q : Canonical) :
  normalize sw raw = Ok q ->
  normalize sw (text q) = Ok q
  /\ (forall t, isCanonicalText t = true -> forall q', normalize sw t = Ok q' -> text q' = t).
Proof.
  intros H. split.
  - unfold normalize in *.
    destruct (truthy raw) eqn:Et; simpl in H; [|discriminate].
    destruct (Z.ltb_spec lengthBound (Z.of_nat (length raw))) as [Hl|Hl]; [discriminate|].
    injection H as <-. simpl.
    rewrite collapse_truthy, lowerCase_truthy, Et. simpl.
    pose proof (collapseFrom_length false (lowerCase raw)) as Hlen.
    rewrite lowerCase_length in Hlen. unfold collapse at 1.
    destruct (Z.ltb_spec lengthBound (Z.of_nat (length (collapseFrom false (lowerCase raw)))));
      [lia|].
    unfold canonical. f_equal.
    pose proof (canonical_text_shape sw raw) as Hs. simpl in Hs.
    by rewrite (canonical_text_fixed _ Hs).
  - intros t Ht q'. unfold normalize.
    destruct (_ || _); [discriminate|]. intros [= <-]. simpl.
    by apply canonical_text_fixed.
Qed.

Lemma normalize_idempotent_witness :
  normalize [lit "a"] (text (canonical [lit "a"] (lit "Need  a React  Developer")))
  = Ok (canonical [lit "a"] (lit "Need  a React  Developer")).
Proof.
  exact (proj1 (normalize_idempotent [lit "a"] (lit "Need  a React  Developer") _ eq_refl)).
Defined.

End NormalizerFacts.

(** ** The submission boundary *)

Module DescriptionPageFacts.

Import DescriptionPage Normalizer JsFacts.

Lemma handlePost_Some d r :
  handlePost d = Some r -> projectDescription r = d /\ hasVisibleChar d = true.
Proof.
  unfold handlePost. rewrite truthy_trim.
  destruct (hasVisibleChar d); [|discriminate]. by intros [= <-].
Qed.

(** Without a visible character the post is a no-op and the button is
    disabled; beyond the limit the button is disabled too. *)
Lemma post_refused d :
  (hasVisibleChar d = false ->
     handlePost d = None /\ postDisabled d = true /\ forall e, onKeyDown e d = None)
  /\ ((maxCharacters < characterCount d)%Z -> postDisabled d = true /\ onClick d = None).
Proof.
  unfold onKeyDown, onClick, postDisabled, handlePost. rewrite truthy_trim. split.
  - intros ->. simpl. repeat split. intros e. destruct (key e); [|done].
    by destruct (metaKey e || ctrlKey e).
  - intros H%Z.ltb_lt. rewrite H, orb_true_r. done.
Qed.

(** [handlePost] itself looks at no length: the keyboard path posts any
    text with a visible character, and the bound on it rests on [maxLength]. *)
Lemma keyboard_post_checks_no_length d e :
  hasVisibleChar d = true -> key e = Enter -> metaKey e || ctrlKey e = true ->
  onKeyDown e d = Some (mkRequest d).
Proof.
  intros Hv He Hm. unfold onKeyDown, handlePost.
  by rewrite He, Hm, truthy_trim, Hv.
Qed.

Lemma step_posts d ev r :
  snd (step d ev) = Some r -> projectDescription r = d /\ hasVisibleChar d = true.
Proof.
  destruct ev as [v| |e]; simpl; [discriminate| |].
  - unfold onClick. destruct (postDisabled d); [discriminate|]. apply handlePost_Some.
  - unfold onKeyDown. destruct (key e); [|discriminate].
    destruct (metaKey e || ctrlKey e); [|discriminate]. apply handlePost_Some.
Qed.

(** The description never grows beyond [maxLength] while the browser holds
    the edits to it. *)
Lemma step_keeps_bound d ev :
  withinMaxLength ev = true ->
  (characterCount d <= maxCharacters)%Z ->
  (characterCount (fst (step d ev)) <= maxCharacters)%Z.
Proof.
  destruct ev as [v| |e]; simpl; [|done|done].
  intros H%Z.leb_le _. done.
Qed.

Lemma posted_bounded evs : forall d r,
  forallb withinMaxLength evs = true ->
  (characterCount d <= maxCharacters)%Z ->
  r ∈ posted d evs ->
  hasVisibleChar (projectDescription r) = true
  /\ (characterCount (projectDescription r) <= maxCharacters)%Z.
Proof.
  induction evs as [|ev evs IH]; intros d r Hw Hd; simpl.
  - by intros ?%elem_of_nil.
  - simpl in Hw. apply andb_prop in Hw as [Hev Hw].
    pose proof (step_keeps_bound d ev Hev Hd) as Hd'.
    pose proof (step_posts d ev) as Hp.
    destruct (step d ev) as [d' [r'|]]; simpl in *.
    + intros [->|Hin]%elem_of_cons; [|by apply (IH d')].
      destruct (Hp r' eq_refl) as [-> Hv]. done.
    + by apply (IH d').
Qed.

(** C10: along any use of the page in which the textarea's edits stay
    within [maxLength], every description posted, by the button or by
    Ctrl/Cmd+Enter, has a character that is not white space and at most 5000
    characters; so the Normalizer does not fail on it, whatever the
    stopwords. White-space-only text is never posted. *)
Theorem posted_description_is_valid (sw : list JsString)
    (evs : list Event) (r : MatchRequest) :
  forallb withinMaxLength evs = true ->
  r ∈ posted initialDescription evs ->
  hasVisibleChar (projectDescription r) = true
  /\ (characterCount (projectDescription r) <= 5000)%Z
  /\ normalize sw (projectDescription r) = Ok (canonical sw (projectDescription r)).
Proof.
  intros Hw Hin.
  destruct (posted_bounded evs initialDescription r Hw) as [Hv Hl]; [done|done|].
  split; [done|]. split; [done|].
  unfold normalize.
  destruct (projectDescription r) as [|c d] eqn:E; [discriminate Hv|].
  simpl truthy. simpl negb. rewrite orb_false_l.
  unfold characterCount, maxCharacters in Hl. unfold lengthBound.
  by destruct (Z.ltb_spec 5000 (Z.of_nat (length (c :: d)))); [lia|].
Qed.

(** The page is stricter than the Normalizer: a text of spaces is within
    the Normalizer's contract, and the page never posts it. *)
Lemma blank_text_refused_by_page_only :
  normalize [] (lit "   ") = Ok (canonical [] (lit "   "))
  /\ handlePost (lit "   ") = None
  /\ postDisabled (lit "   ") = true.
Proof. repeat split. Qed.

Lemma posted_description_is_valid_witness :
  normalize [] (lit "React app") = Ok (canonical [] (lit "React app")).
Proof.
  refine (proj2 (proj2 (posted_description_is_valid []
    [Edit (lit "   "); Click; Edit (lit "React app"); KeyDown (mkKey Enter false true)]
    (mkRequest (lit "React app")) eq_refl _))).
  vm_compute. apply list_elem_of_here.
Defined.

End DescriptionPageFacts.

(** ** The Consultant interface *)

Module ConsultantTypeFacts.

Import ConsultantType.

Lemma required_lookup t p o :
  required t p o = true -> exists v, o !! p = Some v /\ hasType t v = true.
Proof. unfold required. destruct (o !! p) as [v|]; [eauto | discriminate]. Qed.

Lemma optional_lookup t p o :
  optional t p o = true ->
  o !! p = None \/ o !! p = Some VUndefined \/ exists v, o !! p = Some v /\ hasType t v = true.
Proof.
  unfold optional. destruct (o !! p) as [v|]; [|by left].
  destruct v; intros H; try discriminate H; eauto.
  all: right; right; eexists; split; [reflexivity | exact H].
Qed.

Lemma hasType_string v : hasType TString v = true -> exists s, v = VString s.
Proof. destruct v; try discriminate. eauto. Qed.

Lemma hasType_strings v : hasType TStringArray v = true -> exists l, v = VStrings l.
Proof. destruct v; try discriminate. eauto. Qed.

(** C9, as the interface declares it: every Consultant record has a name, a
    list of skills and an availability, all present; [id] and [experience]
    are optional: each is missing, undefined, or a string. *)
Theorem consultant_fields (o : JsObject) :
  isConsultant o = true ->
  (exists n, o !! "name" = Some (VString n))
  /\ (exists l, o !! "skills" = Some (VStrings l))
  /\ (exists a, o !! "availability" = Some (VString a))
  /\ (present "id" o = false \/ exists i, o !! "id" = Some (VString i))
  /\ (present "experience" o = false \/ exists e, o !! "experience" = Some (VString e)).
Proof.
  unfold isConsultant. intros H.
  apply andb_prop in H as [H _]. apply andb_prop in H as [H _].
  apply andb_prop in H as [H Hexp]. apply andb_prop in H as [H _].
  apply andb_prop in H as [H Havail]. apply andb_prop in H as [H Hskills].
  apply andb_prop in H as [Hid Hname].
  split_and!.
  - apply required_lookup in Hname as (v & Hv & [s ->]%hasType_string). eauto.
  - apply required_lookup in Hskills as (v & Hv & [l ->]%hasType_strings). eauto.
  - apply required_lookup in Havail as (v & Hv & [s ->]%hasType_string). eauto.
  - unfold present.
    apply optional_lookup in Hid as [->| [->| (v & Hv & [s ->]%hasType_string)]]; eauto.
  - unfold present.
    apply optional_lookup in Hexp as [->| [->| (v & Hv & [s ->]%hasType_string)]]; eauto.
Qed.

Lemma consultant_fields_witness :
  exists n, anonymousConsultant !! "name" = Some (VString n).
Proof.
  exact (proj1 (consultant_fields anonymousConsultant eq_refl)).
Defined.

(** C9 as stated fails: a record of type Consultant with no [id] (and no
    [experience]). *)
Lemma consultant_without_id :
  isConsultant anonymousConsultant = true
  /\ anonymousConsultant !! "id" = None
  /\ present "id" anonymousConsultant = false
  /\ present "experience" anonymousConsultant = false.
Proof. repeat split. Qed.

End ConsultantTypeFacts.

(** ** Scorer *)

Module ScorerFacts.

Import Normalizer Scorer.

Lemma isPositive_iff q : isPositive q = true <-> (0 < q)%Q.
Proof.
  unfold isPositive. rewrite negb_true_iff. split.
  - intros H. apply Qnot_le_lt. intros Hle. apply Qle_bool_iff in Hle. congruence.
  - intros H. apply not_true_iff_false. intros Hle%Qle_bool_iff.
    by apply (Qlt_not_le _ _ H).
Qed.

Lemma clampUnit_unit q : inUnit (clampUnit q).
Proof.
  unfold clampUnit, inUnit.
  destruct (Qle_bool q 0) eqn:E0; [split; lra|].
  destruct (Qle_bool 1 q) eqn:E1; [split; lra|].
  apply not_true_iff_false in E0, E1. rewrite Qle_bool_iff in E0, E1.
  apply Qnot_le_lt in E0, E1. split; lra.
Qed.

Lemma clampUnit_pos q : (0 < clampUnit q)%Q <-> (0 < q)%Q.
Proof.
  unfold clampUnit.
  destruct (Qle_bool q 0) eqn:E0.
  - apply Qle_bool_iff in E0. split; lra.
  - apply not_true_iff_false in E0. rewrite Qle_bool_iff in E0. apply Qnot_le_lt in E0.
    destruct (Qle_bool 1 q); split; intros; lra.
Qed.

(** A weighted component stays between zero and its weight. *)
Lemma weighted_unit w x :
  (0 <= w)%Q -> inUnit x -> (0 <= w * x /\ w * x <= w)%Q.
Proof. unfold inUnit. intros Hw [H0 H1]. split; nra. Qed.

Lemma product_pos w x :
  (0 <= w)%Q -> (0 <= x)%Q -> (0 < w * x)%Q <-> (0 < w /\ 0 < x)%Q.
Proof. intros Hw Hx. split; [intros H; split; nra | intros [? ?]; nra]. Qed.

Section WithPolicy.

Variable p : Policy.
Hypothesis valid : validPolicy p.

Lemma increment_nonneg m : (0 <= increment p m)%Q.
Proof.
  destruct valid. destruct m as [[|]|]; simpl; lra.
Qed.

Lemma increment_pos m : (0 < increment p (Some m))%Q.
Proof. destruct valid. destruct m; simpl; lra. Qed.

Lemma availabilityLevel_unit a : inUnit (availabilityLevel p a).
Proof.
  destruct valid. destruct a; simpl; try done; unfold inUnit; lra.
Qed.

Lemma sumQ_nonneg (f : JsString -> Q) l :
  (forall k, 0 <= f k)%Q -> (0 <= sumQ (List.map f l))%Q.
Proof.
  intros Hf. induction l as [|k l IH]; simpl; [lra|].
  specialize (Hf k). lra.
Qed.

Lemma sumQ_member (f : JsString -> Q) l k :
  (forall k, 0 <= f k)%Q -> k ∈ l -> (f k <= sumQ (List.map f l))%Q.
Proof.
  intros Hf. induction 1 as [k l|k k' l _ IH]; simpl.
  - pose proof (sumQ_nonneg f l Hf). lra.
  - specialize (Hf k'). lra.
Qed.

Lemma sumQ_pos (f : JsString -> Q) l :
  (0 < sumQ (List.map f l))%Q -> exists k, k ∈ l /\ (0 < f k)%Q.
Proof.
  induction l as [|k l IH]; simpl; [lra|].
  intros H. destruct (Qlt_le_dec 0 (f k)) as [Hk|Hk].
  - exists k. split; [apply list_elem_of_here | done].
  - destruct IH as (k' & Hin & Hk'); [lra|].
    exists k'. split; [by apply list_elem_of_further | done].
Qed.

(** The skill reasons are there exactly when the structured component
    contributes to the score. *)
Lemma skillReasons_nonempty kws c :
  skillReasons p kws c <> [] <-> (0 < wStructured p * structured p kws c)%Q.
Proof.
  pose proof (wStructured_nonneg p valid) as Hw.
  set (f := fun k => increment p (matchSkill k (skills c))).
  assert (Hf : forall k, (0 <= f k)%Q) by (intros k; apply increment_nonneg).
  unfold structured. fold f.
  rewrite product_pos; [|done|apply clampUnit_unit]. rewrite clampUnit_pos.
  unfold skillReasons. split.
  - intros H.
    destruct (flat_map _ kws) as [|r rs] eqn:E; [done|].
    assert (Hin : In r (flat_map (fun k =>
      match matchSkill k (skills c) with
      | Some m => if isPositive (wStructured p * increment p (Some m)) then [SkillReason m k] else []
      | None => []
      end) kws)) by (rewrite E; by left).
    apply in_flat_map in Hin as (k & Hk & Hr).
    destruct (matchSkill k (skills c)) as [m|] eqn:Em; [|done].
    destruct (isPositive _) eqn:Ep; [|done].
    apply isPositive_iff in Ep.
    apply product_pos in Ep as [Hw' Hi]; [|done|apply increment_nonneg].
    split; [done|].
    apply list_elem_of_In in Hk.
    pose proof (sumQ_member f kws k Hf Hk) as Hle.
    unfold f at 1 in Hle. rewrite Em in Hle. lra.
  - intros [Hw' Hs]. apply sumQ_pos in Hs as (k & Hk & Hpos).
    unfold f in Hpos.
    destruct (matchSkill k (skills c)) as [m|] eqn:Em; [|simpl in Hpos; lra].
    intros Hnil.
    assert (Hin : In (SkillReason m k) (flat_map (fun k =>
      match matchSkill k (skills c) with
      | Some m => if isPositive (wStructured p * increment p (Some m)) then [SkillReason m k] else []
      | None => []
      end) kws)).
    { apply in_flat_map. exists k. split; [by apply list_elem_of_In|].
      rewrite Em.
      assert (Hp : isPositive (wStructured p * increment p (Some m)) = true).
      { apply isPositive_iff, product_pos; [done|apply increment_nonneg|done]. }
      rewrite Hp. by left. }
    rewrite Hnil in Hin. done.
Qed.

Lemma structured_unit kws c : inUnit (structured p kws c).
Proof. apply clampUnit_unit. Qed.

Lemma score_bounds q similarity c :
  inUnit (score (scoreCandidate p q similarity c)).
Proof.
  simpl. destruct valid.
  pose proof (weighted_unit _ _ wSemantic_nonneg0 (clampUnit_unit similarity)).
  pose proof (weighted_unit _ _ wStructured_nonneg0 (structured_unit (keywords q) c)).
  pose proof (weighted_unit _ _ wAvailability_nonneg0 (availabilityLevel_unit (availability c))).
  unfold inUnit. split; lra.
Qed.

Lemma reasons_iff_positive q similarity c :
  reasons (scoreCandidate p q similarity c) <> []
  <-> (0 < score (scoreCandidate p q similarity c))%Q.
Proof.
  simpl. destruct valid.
  pose proof (weighted_unit _ _ wSemantic_nonneg0 (clampUnit_unit similarity)) as [Hs _].
  pose proof (weighted_unit _ _ wStructured_nonneg0 (structured_unit (keywords q) c)) as [Ht _].
  pose proof (weighted_unit _ _ wAvailability_nonneg0 (availabilityLevel_unit (availability c))) as [Ha _].
  pose proof (skillReasons_nonempty (keywords q) c) as Hk.
  pose proof (isPositive_iff (wSemantic p * clampUnit similarity)) as Hps.
  pose proof (isPositive_iff (wAvailability p * availabilityLevel p (availability c))) as Hpa.
  destruct (isPositive (wSemantic p * clampUnit similarity)).
  - split; [intros _|done]. assert (0 < wSemantic p * clampUnit similarity)%Q by by apply Hps.
    lra.
  - assert (Hs0 : ~ (0 < wSemantic p * clampUnit similarity)%Q) by (intros H%Hps; done).
    simpl.
    destruct (isPositive (wAvailability p * availabilityLevel p (availability c))).
    + split; [intros _|intros _ H; by apply app_eq_nil in H as [_ ?]].
      assert (0 < wAvailability p * availabilityLevel p (availability c))%Q by by apply Hpa.
      lra.
    + assert (Ha0 : ~ (0 < wAvailability p * availabilityLevel p (availability c))%Q)
        by (intros H%Hpa; done).
      rewrite app_nil_r, Hk. split; intros H; lra.
Qed.

End WithPolicy.

(** C4: under a valid policy the composite score of every candidate the
    Scorer returns lies in [[0,1]], and its reasons are non-empty exactly
    when the score is positive. *)
Theorem score_in_unit_and_explained (p : Policy) (q : Canonical) (similarity : Q) (c : Consultant) :
  validPolicy p ->
  let sc := scoreCandidate p q similarity c in
  (0 <= score sc)%Q /\ (score sc <= 1)%Q /\ (reasons sc <> [] <-> (0 < score sc)%Q).
Proof.
  intros Hv sc. subst sc.
  destruct (score_bounds p Hv q similarity c) as [H0 H1].
  split; [done|]. split; [done|]. by apply reasons_iff_positive.
Qed.

Lemma score_in_unit_and_explained_witness :
  (score (scoreCandidate defaultPolicy reactQuery (3 # 5) reactConsultant) <= 1)%Q.
Proof.
  refine (proj1 (proj2
    (score_in_unit_and_explained defaultPolicy reactQuery (3 # 5) reactConsultant _))).
  constructor; unfold inUnit; simpl; lra.
Defined.

(** The scenario of section 8: with equal similarity the consultant who
    knows React scores higher than the one who does not, and one of her
    reasons names the keyword "react". *)
Example react_scenario :
  let a := scoreCandidate defaultPolicy reactQuery (3 # 5) reactConsultant in
  let b := scoreCandidate defaultPolicy reactQuery (3 # 5) pythonConsultant in
  (score b < score a)%Q /\ SkillReason ExactMatch (lit "react") ∈ reasons a.
Proof.
  split; [reflexivity|]. vm_compute. apply list_elem_of_further, list_elem_of_here.
Qed.

End ScorerFacts.

(** ** Ranker *)

Module RankerFacts.

Import Scorer Ranker.

Lemma indexFrom_elem l : forall i j c,
  (j, c) ∈ indexFrom i l <-> i <= j /\ l !! (j - i) = Some c.
Proof.
  induction l as [|c0 l IH]; intros i j c; simpl.
  - rewrite elem_of_nil. split; [done | by intros [_ ?]].
  - rewrite elem_of_cons, IH. split.
    + intros [[= -> ->]|[Hle Hl]].
      * split; [lia|]. by rewrite Nat.sub_diag.
      * split; [lia|]. by replace (j - i) with (S (j - S i)) by lia.
    + intros [Hle Hl]. destruct (decide (j = i)) as [->|Hne].
      * left. rewrite Nat.sub_diag in Hl. simpl in Hl. by injection Hl as ->.
      * right. split; [lia|].
        by replace (j - i) with (S (j - S i)) in Hl by lia.
Qed.

Lemma insertDesc_perm x l : insertDesc x l ≡ₚ x :: l.
Proof.
  induction l as [|y l IH]; simpl; [done|].
  destruct (Qle_bool (scoreOf y) (scoreOf x)); [done|].
  rewrite IH. apply Permutation_swap.
Qed.

Lemma sortDesc_perm l : sortDesc l ≡ₚ l.
Proof.
  induction l as [|x l IH]; simpl; [done|].
  rewrite insertDesc_perm. by rewrite IH.
Qed.

(** Inserting an element that came before all of [l] keeps the order. *)
Lemma insertDesc_sorted x l :
  StronglySorted precedes l ->
  Forall (fun y => fst x < fst y) l ->
  StronglySorted precedes (insertDesc x l).
Proof.
  induction l as [|y l IH]; simpl; intros Hs Hx.
  - repeat constructor.
  - apply StronglySorted_cons in Hs as [Hy Hs].
    apply Forall_cons in Hx as [Hxy Hx].
    destruct (Qle_bool (scoreOf y) (scoreOf x)) eqn:E.
    + apply Qle_bool_iff in E.
      apply StronglySorted_cons. split; [|by apply StronglySorted_cons].
      apply Forall_cons. split; [by split|].
      rewrite Forall_forall in Hy, Hx |- *. intros z Hz.
      destruct (Hy z Hz) as [Hyz _]. split; [lra | intros _; by apply Hx].
    + apply not_true_iff_false in E. rewrite Qle_bool_iff in E.
      apply Qnot_le_lt in E.
      apply StronglySorted_cons. split; [|by apply IH].
      rewrite Forall_forall in Hy |- *. intros z Hz.
      rewrite insertDesc_perm in Hz. apply elem_of_cons in Hz as [->|Hz].
      * split; [lra | intros Heq; lra].
      * by apply Hy.
Qed.

Lemma sortDesc_sorted l : forall i,
  StronglySorted precedes (sortDesc (indexFrom i l)).
Proof.
  induction l as [|c l IH]; intros i; simpl; [constructor|].
  apply insertDesc_sorted; [apply IH|].
  apply Forall_forall. intros [j c'] Hin. rewrite sortDesc_perm in Hin.
  apply indexFrom_elem in Hin as [Hle _]. simpl. lia.
Qed.

Lemma sublist_StronglySorted {A} (R : relation A) (l1 l2 : list A) :
  l1 `sublist_of` l2 -> StronglySorted R l2 -> StronglySorted R l1.
Proof.
  induction 1 as [|x l1 l2 Hsub IH|x l1 l2 Hsub IH]; intros Hs; [done| |].
  - apply StronglySorted_cons in Hs as [Hx Hs].
    apply StronglySorted_cons. split; [|by apply IH].
    rewrite Forall_forall in Hx |- *. intros y Hy. apply Hx.
    by apply (elem_of_sublist l1).
  - apply StronglySorted_cons in Hs as [_ Hs]. by apply IH.
Qed.

Lemma StronglySorted_lookup {A} (R : relation A) (l : list A) a b x y :
  StronglySorted R l -> l !! a = Some x -> l !! b = Some y -> a < b -> R x y.
Proof.
  intros Hs. revert a b. induction Hs as [|z l Hs IH Hz]; intros a b Ha Hb Hlt.
  - done.
  - destruct b as [|b]; [lia|]. simpl in Hb. destruct a as [|a]; simpl in Ha.
    + injection Ha as ->. rewrite Forall_forall in Hz. apply Hz.
      apply list_elem_of_lookup. eauto.
    + apply (IH a b); [done|done|lia].
Qed.

Lemma dedupById_sublist l : forall seen, dedupById seen l `sublist_of` l.
Proof.
  induction l as [|x l IH]; intros seen; simpl; [done|].
  case_bool_decide; [by apply sublist_cons | by apply sublist_skip].
Qed.

Lemma dedupById_fresh l : forall seen x,
  x ∈ dedupById seen l -> idOf x ∉ seen.
Proof.
  induction l as [|y l IH]; intros seen x; simpl; [by intros ?%elem_of_nil|].
  case_bool_decide as Hy; [apply IH|].
  intros [->|Hx]%elem_of_cons; [done|].
  apply IH in Hx. intros Hin. apply Hx. by apply list_elem_of_further.
Qed.

Lemma dedupById_NoDup l : forall seen, NoDup (idOf <$> dedupById seen l).
Proof.
  induction l as [|y l IH]; intros seen; simpl; [constructor|].
  case_bool_decide as Hy; [apply IH|].
  rewrite fmap_cons. apply NoDup_cons. split; [|apply IH].
  intros (z & Hz & Hin)%list_elem_of_fmap.
  apply dedupById_fresh in Hin. apply Hin. rewrite <- Hz. apply list_elem_of_here.
Qed.

(** Deduplication loses no consultant. *)
Lemma dedupById_covers l : forall seen x,
  x ∈ l -> idOf x ∈ seen \/ exists y, y ∈ dedupById seen l /\ idOf y = idOf x.
Proof.
  induction l as [|z l IH]; intros seen x; simpl; [by intros ?%elem_of_nil|].
  intros [->|Hx]%elem_of_cons.
  - case_bool_decide as Hz; [by left|].
    right. exists z. split; [apply list_elem_of_here | done].
  - case_bool_decide as Hz; [by apply IH|].
    destruct (IH (idOf z :: seen) x Hx) as [[Heq|Hin]%elem_of_cons|(y & Hy & Hid)].
    + right. exists z. split; [apply list_elem_of_here | done].
    + by left.
    + right. exists y. split; [by apply list_elem_of_further | done].
Qed.

(** The survivor of a consultant is its best entry. *)
Lemma dedupById_best l : forall seen x y,
  StronglySorted precedes l ->
  x ∈ dedupById seen l -> y ∈ l -> idOf y = idOf x ->
  (scoreOf y <= scoreOf x)%Q.
Proof.
  induction l as [|z l IH]; intros seen x y Hs; simpl; [by intros ?%elem_of_nil|].
  apply StronglySorted_cons in Hs as [Hz Hs]. rewrite Forall_forall in Hz.
  case_bool_decide as Hseen.
  - intros Hx [->|Hy]%elem_of_cons Hid.
    + apply dedupById_fresh in Hx. by rewrite <- Hid in Hx.
    + by apply (IH seen).
  - intros [->|Hx]%elem_of_cons [->|Hy]%elem_of_cons Hid.
    + lra.
    + by destruct (Hz y Hy).
    + apply dedupById_fresh in Hx. rewrite <- Hid in Hx.
      exfalso. apply Hx. apply list_elem_of_here.
    + by apply (IH (idOf z :: seen)).
Qed.

Section Ranked.

Variable K : nat.
Variable l : list ScoredCandidate.

Let sorted := sortDesc (indexFrom 0 l).
Let unique := dedupById [] sorted.

Lemma unique_sorted : StronglySorted precedes unique.
Proof.
  apply (sublist_StronglySorted _ _ sorted); [apply dedupById_sublist|].
  apply sortDesc_sorted.
Qed.

Lemma rankIndexed_sublist : rankIndexed K l `sublist_of` unique.
Proof. apply sublist_take. Qed.

Lemma rankIndexed_from_input i c : (i, c) ∈ rankIndexed K l -> l !! i = Some c.
Proof.
  intros Hin. apply (elem_of_sublist _ unique) in Hin; [|apply rankIndexed_sublist].
  apply (elem_of_sublist _ sorted) in Hin; [|apply dedupById_sublist].
  unfold sorted in Hin. rewrite sortDesc_perm in Hin.
  apply indexFrom_elem in Hin as [_ Hl]. by rewrite Nat.sub_0_r in Hl.
Qed.

Lemma input_in_sorted c : c ∈ l -> exists i, (i, c) ∈ sorted.
Proof.
  intros (i & Hi)%list_elem_of_lookup. exists i. unfold sorted.
  rewrite sortDesc_perm. apply indexFrom_elem. split; [lia|]. by rewrite Nat.sub_0_r.
Qed.

Lemma rank_length : length (rank K l) <= K.
Proof.
  unfold rank, rankIndexed. rewrite length_fmap, length_take. lia.
Qed.

Lemma rank_ids_NoDup : NoDup ((fun c => id (consultant c)) <$> rank K l).
Proof.
  unfold rank. rewrite <- list_fmap_compose.
  change ((fun c => id (consultant c)) ∘ snd) with idOf.
  apply (sublist_NoDup _ (idOf <$> unique)); [apply dedupById_NoDup|].
  apply fmap_sublist, rankIndexed_sublist.
Qed.

Lemma rank_ordered a b x y :
  rankIndexed K l !! a = Some x -> rankIndexed K l !! b = Some y -> a < b ->
  precedes x y.
Proof.
  apply StronglySorted_lookup.
  apply (sublist_StronglySorted _ _ unique); [apply rankIndexed_sublist|].
  apply unique_sorted.
Qed.

Lemma rank_best x c :
  x ∈ rankIndexed K l -> c ∈ l -> id (consultant c) = idOf x ->
  (score c <= scoreOf x)%Q.
Proof.
  intros Hx Hc Hid. apply input_in_sorted in Hc as [i Hi].
  apply (elem_of_sublist _ unique) in Hx; [|apply rankIndexed_sublist].
  apply (dedupById_best sorted [] x (i, c)); [apply sortDesc_sorted|done|done|done].
Qed.

(** A candidate whose consultant is not returned is beaten by all [K]
    entries that are. *)
Lemma rank_top c :
  c ∈ l ->
  (exists x, x ∈ rankIndexed K l /\ idOf x = id (consultant c))
  \/ (length (rankIndexed K l) = K
      /\ forall x, x ∈ rankIndexed K l -> (score c <= scoreOf x)%Q).
Proof.
  intros Hc. destruct (input_in_sorted c Hc) as [i Hi].
  destruct (dedupById_covers sorted [] (i, c) Hi) as [Hin|(y & Hy & Hid)];
    [by apply elem_of_nil in Hin|].
  assert (Hbest : (score c <= scoreOf y)%Q).
  { apply (dedupById_best sorted [] y (i, c)); [apply sortDesc_sorted|done|done|done]. }
  fold unique in Hy. rewrite <- (take_drop K unique) in Hy.
  apply elem_of_app in Hy as [Hy|Hy].
  - left. exists y. by split.
  - right. split.
    + unfold rankIndexed. fold sorted. fold unique. apply length_take_le.
      destruct (decide (K <= length unique)) as [|Hgt]; [done|].
      rewrite drop_ge in Hy by lia. by apply elem_of_nil in Hy.
    + intros x Hx. pose proof unique_sorted as Hs.
      rewrite <- (take_drop K unique) in Hs.
      destruct (StronglySorted_app_1_elem_of _ _ _ x y Hs Hx Hy) as [Hle _].
      lra.
Qed.

End Ranked.

(** C3: the Ranker returns at most [K] entries, at most one per consultant
    id, each taken from the input; a consultant's surviving entry is its
    highest-scoring one; the output is ordered by non-increasing score, and
    entries of equal score keep their input order; a consultant left out is
    beaten by all [K] entries returned. The output is a function of the
    input, so equal inputs give equal outputs. *)
Theorem rank_top_K_deduplicated_stable (K : nat) (l : list ScoredCandidate) :
  rank K l = snd <$> rankIndexed K l
  /\ length (rank K l) <= K
  /\ NoDup ((fun c => id (consultant c)) <$> rank K l)
  /\ (forall x, x ∈ rankIndexed K l -> l !! fst x = Some (snd x))
  /\ (forall x c, x ∈ rankIndexed K l -> c ∈ l -> id (consultant c) = idOf x ->
        (score c <= scoreOf x)%Q)
  /\ (forall a b x y, rankIndexed K l !! a = Some x -> rankIndexed K l !! b = Some y ->
        a < b ->
        (scoreOf y <= scoreOf x)%Q /\ ((scoreOf x == scoreOf y)%Q -> fst x < fst y))
  /\ (forall c, c ∈ l ->
        (exists x, x ∈ rankIndexed K l /\ idOf x = id (consultant c))
        \/ (length (rank K l) = K
            /\ forall x, x ∈ rankIndexed K l -> (score c <= scoreOf x)%Q))
  /\ (forall l', l' = l -> rank K l' = rank K l).
Proof.
  split_and!.
  - reflexivity.
  - apply rank_length.
  - apply rank_ids_NoDup.
  - intros [i c]. apply rankIndexed_from_input.
  - apply rank_best.
  - apply rank_ordered.
  - intros c Hc. unfold rank. rewrite length_fmap. by apply rank_top.
  - by intros l' ->.
Qed.

(** The scenario of section 8, ranked: the React consultant comes first,
    whatever the input order, and a duplicate of her with a lower score is
    dropped. *)
Example react_scenario_ranked :
  let a := scoreCandidate defaultPolicy reactQuery (3 # 5) reactConsultant in
  let a' := scoreCandidate defaultPolicy reactQuery 0 reactConsultant in
  let b := scoreCandidate defaultPolicy reactQuery (3 # 5) pythonConsultant in
  rank 10 [a'; b; a] = [a; b] /\ rank 1 [b; a] = [a].
Proof. split; reflexivity. Qed.

End RankerFacts.

(** ** Team Assembler *)

Module TeamAssemblerFacts.

Import Scorer TeamAssembler.

Lemma firstFree_Some taken pool c :
  firstFree taken pool = Some c ->
  (c ∉ taken) /\ exists pre post, pool = pre ++ c :: post /\ forall d, d ∈ pre -> d ∈ taken.
Proof.
  unfold firstFree. induction pool as [|x pool IH]; simpl; [done|].
  unfold isFree at 1. case_bool_decide as Hx; simpl.
  - intros H. destruct (IH H) as (Hc & pre & post & -> & Hpre).
    split; [done|]. exists (x :: pre), post. split; [done|].
    intros d [->|Hd]%elem_of_cons; auto.
  - intros [= ->]. split; [done|]. exists [], pool. split; [done|].
    by intros d ?%elem_of_nil.
Qed.

Lemma firstFree_in taken pool c :
  firstFree taken pool = Some c -> c ∈ pool /\ c ∉ taken.
Proof.
  intros (Hc & pre & post & -> & _)%firstFree_Some. split; [|done].
  apply elem_of_app. right. apply list_elem_of_here.
Qed.

Lemma firstFree_None taken pool :
  firstFree taken pool = None -> forall d, d ∈ pool -> d ∈ taken.
Proof.
  unfold firstFree. induction pool as [|x pool IH]; simpl.
  - by intros _ d ?%elem_of_nil.
  - unfold isFree at 1. case_bool_decide as Hx; simpl; [|done].
    intros H d [->|Hd]%elem_of_cons; auto.
Qed.

Lemma heldIds_lookup seats d :
  d ∈ heldIds seats <-> exists i s, seats !! i = Some s /\ seatHolds s = Some d.
Proof.
  unfold heldIds. rewrite list_elem_of_omap. split.
  - intros (s & [i Hi]%list_elem_of_lookup & Hs). eauto.
  - intros (i & s & Hi & Hs). exists s. split; [|done].
    apply list_elem_of_lookup. eauto.
Qed.

Lemma heldIds_snoc seats s :
  heldIds (seats ++ [s]) = heldIds seats ++ from_option (fun c => [c]) [] (seatHolds s).
Proof. unfold heldIds. rewrite omap_app. simpl. by destruct (seatHolds s). Qed.

Lemma findReseat_Some taken c seats : forall k d,
  findReseat taken c seats = Some (k, d) ->
  exists s, seats !! k = Some s /\ seatHolds s = Some c
    /\ firstFree taken (seatPool s) = Some d.
Proof.
  induction seats as [|s seats IH]; intros k d; simpl; [done|].
  case_bool_decide as Hs.
  - destruct (firstFree taken (seatPool s)) as [d'|] eqn:Ef.
    + intros [= <- <-]. by exists s.
    + destruct (findReseat taken c seats) as [[k' d']|]; [|done].
      intros [= <- <-]. by apply IH.
  - destruct (findReseat taken c seats) as [[k' d']|]; [|done].
    intros [= <- <-]. by apply IH.
Qed.

Lemma findReseat_None taken c seats :
  findReseat taken c seats = None ->
  forall i s, seats !! i = Some s -> seatHolds s = Some c ->
    firstFree taken (seatPool s) = None.
Proof.
  induction seats as [|s0 seats IH]; simpl; [done|].
  intros H i s Hi Hs.
  destruct (findReseat taken c seats) as [[k' d']|] eqn:Er.
  { by destruct (if bool_decide _ then _ else _). }
  destruct i as [|i]; simpl in Hi.
  - injection Hi as ->. rewrite bool_decide_eq_true_2 in H by done.
    by destruct (firstFree taken (seatPool s)).
  - by apply (IH eq_refl i).
Qed.

Lemma ReconciledIn_mono held held' seats :
  ReconciledIn held seats -> (forall d, d ∈ held -> d ∈ held') -> ReconciledIn held' seats.
Proof.
  intros [Hp Hb Hn Hf Hs] Hsub. constructor; [done| |done|done|].
  { intros j s c Hj Hc. destruct (Hb j s c Hj Hc) as (pre & post & Hpool & Hpre).
    exists pre, post. split; [done|]. intros d Hd. by apply Hsub, Hpre. }
  intros i j si sj c Hij Hi Hj Hci Hcj.
  destruct (Hs i j si sj c Hij Hi Hj Hci Hcj) as [Hflag Hall]. split; [done|].
  intros d Hd. by apply Hsub, Hall.
Qed.

(** A role joins the seated ones. *)
Lemma append_reconciled held seats new :
  ReconciledIn held seats ->
  (forall c, seatHolds new = Some c ->
     exists pre post, seatPool new = pre ++ c :: post /\ forall d, d ∈ pre -> d ∈ held) ->
  (seatOutcome new = NoMatch <-> seatPool new = []) ->
  (forall c, seatOutcome new = Assigned c true -> c ∈ heldIds seats) ->
  (forall i si c, seats !! i = Some si -> seatHolds si = Some c -> seatHolds new = Some c ->
     seatOutcome new = Assigned c true
     /\ forall d, d ∈ seatPool si \/ d ∈ seatPool new -> d ∈ held) ->
  ReconciledIn held (seats ++ [new]).
Proof.
  intros [Hp Hb Hn Hf Hs] Np Nn Nf Ns. constructor.
  - intros j s c [[_ Hj]|[_ <-]]%lookup_snoc_Some; [by apply (Hp j)|].
    intros (pre & post & -> & _)%Np. apply elem_of_app. right. apply list_elem_of_here.
  - intros j s c [[_ Hj]|[_ <-]]%lookup_snoc_Some; [by apply (Hb j)|apply Np].
  - intros j s [[_ Hj]|[_ <-]]%lookup_snoc_Some; [by apply (Hn j)|exact Nn].
  - intros j s c [[_ Hj]|[-> <-]]%lookup_snoc_Some Hflag.
    + destruct (Hf j s c Hj Hflag) as (i & si & Hij & Hi & Hc).
      exists i, si. split; [done|]. split; [|done]. by apply lookup_app_l_Some.
    + apply Nf, heldIds_lookup in Hflag as (i & si & Hi & Hc).
      exists i, si. split; [by apply lookup_lt_Some in Hi|].
      split; [by apply lookup_app_l_Some|done].
  - intros i j si sj c Hij Hi [[Hlt Hj]|[-> <-]]%lookup_snoc_Some Hci Hcj.
    + apply lookup_snoc_Some in Hi as [[_ Hi]|[-> _]]; [|lia].
      by apply (Hs i j).
    + apply lookup_snoc_Some in Hi as [[_ Hi]|[-> _]]; [|lia].
      by apply (Ns i si c).
Qed.

(** The holder of [c] moves to a candidate [d] of its own that nobody
    holds: until [c] is taken again the roles are reconciled except that [c]
    is out of use. *)
Lemma reseat_reconciled seats k s c d :
  ReconciledIn (heldIds seats) seats ->
  seats !! k = Some s -> seatHolds s = Some c ->
  firstFree (heldIds seats) (seatPool s) = Some d ->
  let seats' := <[k := mkSeat (seatTitle s) (seatPool s) (Assigned d false)]> seats in
  ReconciledIn (d :: heldIds seats) seats'
  /\ (c ∉ heldIds seats')
  /\ (forall e, e ∈ heldIds seats -> e = c \/ e ∈ heldIds seats')
  /\ d ∈ heldIds seats'.
Proof.
  intros [Hp Hb Hn Hf Hs] Hk Hc Hfirst seats'.
  destruct (firstFree_in _ _ _ Hfirst) as [Hd Hfree].
  assert (Hlen : k < length seats) by by apply lookup_lt_Some in Hk.
  assert (Huniq : forall m sm, seats !! m = Some sm -> seatHolds sm = Some c -> m = k).
  { intros m sm Hm Hcm. destruct (decide (m = k)) as [|Hne]; [done|].
    exfalso. apply Hfree.
    destruct (decide (m < k)).
    - destruct (Hs m k sm s c) as [_ Hall]; [lia|done..|]. apply Hall. by right.
    - destruct (Hs k m s sm c) as [_ Hall]; [lia|done..|]. apply Hall. by left. }
  assert (Hold : forall m sm, seats' !! m = Some sm ->
            (m = k /\ sm = mkSeat (seatTitle s) (seatPool s) (Assigned d false))
            \/ (m <> k /\ seats !! m = Some sm)).
  { intros m sm Hm. unfold seats' in Hm.
    apply list_lookup_insert_Some in Hm as [(-> & <- & _)|[Hne Hm]]; [by left|].
    right. by split. }
  assert (Hnew : forall m sm, m <> k -> seats !! m = Some sm -> seats' !! m = Some sm).
  { intros m sm Hne Hm. unfold seats'. by rewrite list_lookup_insert_ne. }
  assert (Hcd : c <> d).
  { intros ->. apply Hfree, heldIds_lookup. eauto. }
  split_and!.
  - constructor.
    + intros j sj c0 [[-> ->]|[Hne Hj]]%Hold; [by intros [= <-]|by apply (Hp j)].
    + intros j sj c0 [[-> ->]|[Hne Hj]]%Hold Hc0.
      * injection Hc0 as <-. simpl.
        destruct (firstFree_Some _ _ _ Hfirst) as (_ & pre & post & Hpool & Hpre).
        exists pre, post. split; [done|]. intros e He.
        by apply list_elem_of_further, Hpre.
      * destruct (Hb j sj c0 Hj Hc0) as (pre & post & Hpool & Hpre).
        exists pre, post. split; [done|]. intros e He.
        by apply list_elem_of_further, Hpre.
    + intros j sj [[-> ->]|[Hne Hj]]%Hold; [|by apply (Hn j)].
      simpl. split; [done|]. intros Hnil. rewrite Hnil in Hd. by apply elem_of_nil in Hd.
    + intros j sj c0 [[-> ->]|[Hne Hj]]%Hold Hflag; [done|].
      destruct (Hf j sj c0 Hj Hflag) as (i & si & Hij & Hi & Hci).
      assert (i <> k).
      { intros ->. rewrite Hk in Hi. injection Hi as <-.
        rewrite Hc in Hci. injection Hci as <-.
        apply Hne, (Huniq j sj Hj). unfold seatHolds. by rewrite Hflag. }
      exists i, si. split; [done|]. split; [by apply Hnew|done].
    + intros i j si sj c0 Hij [[-> ->]|[Hni Hi]]%Hold [[-> ->]|[Hnj Hj]]%Hold Hci Hcj.
      * lia.
      * injection Hci as <-. exfalso. apply Hfree, heldIds_lookup. eauto.
      * injection Hcj as <-. exfalso. apply Hfree, heldIds_lookup. eauto.
      * destruct (Hs i j si sj c0 Hij Hi Hj Hci Hcj) as [Hflag Hall].
        split; [done|]. intros e He. apply list_elem_of_further. by apply Hall.
  - intros (m & sm & [[-> ->]|[Hne Hm]]%Hold & Hcm)%heldIds_lookup.
    + injection Hcm as ->. done.
    + by apply Hne, (Huniq m sm).
  - intros e (m & sm & Hm & Hcm)%heldIds_lookup.
    destruct (decide (m = k)) as [->|Hne].
    + left. rewrite Hk in Hm. injection Hm as <-. rewrite Hc in Hcm. by injection Hcm.
    + right. apply heldIds_lookup. exists m, sm. split; [by apply Hnew|done].
  - apply heldIds_lookup. exists k, (mkSeat (seatTitle s) (seatPool s) (Assigned d false)).
    split; [|done]. unfold seats'. by apply list_lookup_insert_eq.
Qed.

Lemma seatRole_reconciled seats t pool :
  ReconciledIn (heldIds seats) seats ->
  ReconciledIn (heldIds (seatRole seats t pool)) (seatRole seats t pool).
Proof.
  intros R. unfold seatRole.
  destruct (firstFree (heldIds seats) pool) as [c|] eqn:Ef.
  - destruct (firstFree_in _ _ _ Ef) as [Hin Hfree].
    apply (ReconciledIn_mono (heldIds seats)).
    + apply append_reconciled; simpl; [done|..].
      * intros c' [= <-]. by destruct (firstFree_Some _ _ _ Ef) as [_ ?].
      * split; [done|]. intros Hnil. rewrite Hnil in Hin. by apply elem_of_nil in Hin.
      * done.
      * intros i si c' Hi Hci [= <-]. exfalso. apply Hfree, heldIds_lookup. eauto.
    + intros d Hd. rewrite heldIds_snoc. apply elem_of_app. by left.
  - pose proof (firstFree_None _ _ Ef) as Hall.
    destruct pool as [|c rest].
    + apply (ReconciledIn_mono (heldIds seats)).
      * apply append_reconciled; simpl; done.
      * intros d Hd. rewrite heldIds_snoc. apply elem_of_app. by left.
    + assert (Hc : c ∈ heldIds seats) by apply Hall, list_elem_of_here.
      destruct (findReseat (heldIds seats) c seats) as [[k d]|] eqn:Er.
      * apply findReseat_Some in Er as (s & Hk & Hs & Hfirst).
        unfold reseatAt. rewrite Hk.
        destruct (reseat_reconciled seats k s c d R Hk Hs Hfirst)
          as (R' & Hgone & Hkept & Hdin).
        set (seats' := <[k := _]> seats) in *.
        apply (ReconciledIn_mono (d :: heldIds seats)).
        -- apply append_reconciled; simpl; [done|..].
           ++ intros c' [= <-]. exists [], rest. split; [done|]. by intros e ?%elem_of_nil.
           ++ done.
           ++ done.
           ++ intros i si c' Hi Hci [= <-]. exfalso. apply Hgone, heldIds_lookup. eauto.
        -- intros e He. rewrite heldIds_snoc. simpl. apply elem_of_app.
           apply elem_of_cons in He as [->|He]; [by left|].
           destruct (Hkept e He) as [->|?]; [right; apply list_elem_of_here | by left].
      * apply (ReconciledIn_mono (heldIds seats)).
        -- apply append_reconciled; simpl; [done|..].
           ++ intros c' [= <-]. exists [], rest. split; [done|]. by intros e ?%elem_of_nil.
           ++ done.
           ++ by intros c' [= <-].
           ++ intros i si c' Hi Hci [= <-]. split; [done|].
              intros d [Hd|Hd]; [|by apply Hall].
              apply (firstFree_None (heldIds seats) (seatPool si)); [|done].
              by apply (findReseat_None _ _ _ Er i).
        -- intros d Hd. rewrite heldIds_snoc. apply elem_of_app. by left.
Qed.

Lemma reconcile_from_reconciled pools : forall seats,
  ReconciledIn (heldIds seats) seats ->
  let seats' := fold_left (fun seats p => seatRole seats (fst p) (snd p)) pools seats in
  ReconciledIn (heldIds seats') seats'.
Proof.
  induction pools as [|p pools IH]; intros seats R; simpl; [done|].
  by apply IH, seatRole_reconciled.
Qed.

(** Reconciliation keeps the roles, their order and their pools. *)
Lemma seatRole_keys seats t pool :
  seatKey <$> seatRole seats t pool = (seatKey <$> seats) ++ [(t, pool)].
Proof.
  unfold seatRole.
  destruct (firstFree (heldIds seats) pool); [by rewrite fmap_snoc|].
  destruct pool as [|c rest]; [by rewrite fmap_snoc|].
  destruct (findReseat (heldIds seats) c seats) as [[k d]|]; [|by rewrite fmap_snoc].
  rewrite fmap_snoc. f_equal. unfold reseatAt.
  destruct (seats !! k) as [s|] eqn:Hk; [|done].
  rewrite list_fmap_insert. apply list_insert_id.
  by rewrite list_lookup_fmap, Hk.
Qed.

Lemma reconcile_from_keys pools : forall seats,
  seatKey <$> fold_left (fun seats p => seatRole seats (fst p) (snd p)) pools seats
  = (seatKey <$> seats) ++ pools.
Proof.
  induction pools as [|[t pool] pools IH]; intros seats; simpl; [by rewrite app_nil_r|].
  by rewrite IH, seatRole_keys, <- app_assoc.
Qed.

Lemma reconcile_reconciled pools :
  ReconciledIn (heldIds (reconcile pools)) (reconcile pools).
Proof.
  apply (reconcile_from_reconciled pools []). by constructor.
Qed.

Lemma reconcile_keys pools : seatKey <$> reconcile pools = pools.
Proof. apply (reconcile_from_keys pools []). Qed.

Lemma assignedIds_team n seats : assignedIds (toResult n <$> seats) = heldIds seats.
Proof.
  unfold assignedIds, heldIds. induction seats as [|s seats IH]; [done|].
  rewrite fmap_cons. csimpl. rewrite IH. reflexivity.
Qed.

(** C5: every role gets a result, in order; a role is reported without a
    match exactly when its pool is empty, and otherwise holds a candidate of
    its own pool, every candidate it ranks higher being assigned to some role
    (the fall-through to the next-best). The same consultant is never held by
    two roles while either of them has a candidate that no role holds: when
    two roles hold the same consultant, every candidate of both pools is
    assigned, and the later role is flagged as a repeat. A flag is only ever
    set on such a repeat, of a consultant that a role before it holds. *)
Theorem assembleTeam_shares_only_without_alternates
    (pipeline : Chat.RoleSpec -> list ScoredCandidate)
    (n : nat) (roleSpecs : list Chat.RoleSpec) :
  let team := assembleTeam pipeline n roleSpecs in
  let pool := fun role => candidateIds (pipeline role) in
  length team = length roleSpecs
  /\ (forall j role r, roleSpecs !! j = Some role -> team !! j = Some r ->
        roleTitle r = Chat.title role
        /\ (outcome r = NoMatch <-> pool role = [])
        /\ (forall c, assignedTo r = Some c ->
              c ∈ pool role
              /\ exists better rest, pool role = better ++ c :: rest
                   /\ forall d, d ∈ better -> d ∈ assignedIds team)
        /\ (forall c, outcome r = Assigned c true ->
              (exists i ri, i < j /\ team !! i = Some ri /\ assignedTo ri = Some c)
              /\ forall d, d ∈ pool role -> d ∈ assignedIds team))
  /\ (forall i j ri rj rolei rolej c, i < j ->
        team !! i = Some ri -> team !! j = Some rj ->
        roleSpecs !! i = Some rolei -> roleSpecs !! j = Some rolej ->
        assignedTo ri = Some c -> assignedTo rj = Some c ->
        outcome rj = Assigned c true
        /\ forall d, d ∈ pool rolei \/ d ∈ pool rolej -> d ∈ assignedIds team).
Proof.
  intros team pool. subst team. unfold assembleTeam.
  set (pools := rolePools pipeline roleSpecs).
  rewrite assignedIds_team.
  destruct (reconcile_reconciled pools) as [Hp Hb Hn Hf Hs].
  pose proof (reconcile_keys pools) as Hkeys.
  assert (Hseat : forall j role r, roleSpecs !! j = Some role ->
            (toResult n <$> reconcile pools) !! j = Some r ->
            exists s, reconcile pools !! j = Some s /\ r = toResult n s
              /\ seatTitle s = Chat.title role /\ seatPool s = pool role).
  { intros j role r Hrole Hr.
    apply list_lookup_fmap_Some in Hr as (s & -> & Hs').
    exists s. split; [done|]. split; [done|].
    assert (Hk : (seatKey <$> reconcile pools) !! j = Some (seatKey s))
      by by rewrite list_lookup_fmap, Hs'.
    rewrite Hkeys in Hk. unfold pools, rolePools in Hk.
    rewrite list_lookup_fmap, Hrole in Hk. simpl in Hk.
    injection Hk as Ht Hpool. by split. }
  split_and!.
  - rewrite length_fmap, <- (length_fmap seatKey), Hkeys.
    unfold pools, rolePools. by rewrite length_fmap.
  - intros j role r Hrole Hr.
    destruct (Hseat j role r Hrole Hr) as (s & Hj & -> & Ht & Hpool).
    simpl. rewrite <- Hpool. split_and!.
    + done.
    + by apply (Hn j).
    + intros c Hc. split; [by apply (Hp j s)|by apply (Hb j s)].
    + intros c Hflag.
      destruct (Hf j s c Hj Hflag) as (i & si & Hij & Hi & Hci).
      destruct (Hs i j si s c Hij Hi Hj Hci) as [_ Hall].
      { unfold seatHolds. by rewrite Hflag. }
      split; [|intros d Hd; apply Hall; by right].
      exists i, (toResult n si). split; [done|]. split; [|done].
      by rewrite list_lookup_fmap, Hi.
  - intros i j ri rj rolei rolej c Hij Hi Hj Hrolei Hrolej Hci Hcj.
    destruct (Hseat i rolei ri Hrolei Hi) as (si & Hsi & -> & _ & Hpi).
    destruct (Hseat j rolej rj Hrolej Hj) as (sj & Hsj & -> & _ & Hpj).
    simpl. rewrite <- Hpi, <- Hpj. by apply (Hs i j).
Qed.

(** The scenario of section 8, and its neighbours. Two roles share their
    best candidate and one has an alternate: the candidate goes to one role
    and the other gets the alternate, whichever role comes first. Three
    roles over a pool of two: the third one, with no candidate left anywhere,
    repeats the best, flagged. *)
Example shared_top_candidate :
  outcome <$> assembleTeam samplePipeline 2 [frontend; backend]
    = [Assigned (lit "c2") false; Assigned (lit "c1") false]
  /\ outcome <$> assembleTeam samplePipeline 2 [backend; frontend]
    = [Assigned (lit "c1") false; Assigned (lit "c2") false]
  /\ outcome <$> assembleTeam sharedPipeline 2 [frontend; backend; fullstack]
    = [Assigned (lit "c1") false; Assigned (lit "c2") false; Assigned (lit "c1") true].
Proof. repeat split. Qed.

End TeamAssemblerFacts.

(** ** More on [trim] *)

Module TrimFacts.

Import JsFacts ChatUi.

Lemma trimStart_head s c t : trimStart s = c :: t -> isWhiteSpace c = false.
Proof.
  induction s as [|a s IH]; simpl; [done|].
  destruct (isWhiteSpace a) eqn:E; [exact IH|]. by intros [= <- _].
Qed.

Lemma trimStart_split s :
  exists l, s = l ++ trimStart s /\ forallb isWhiteSpace l = true.
Proof.
  induction s as [|a s (l & Hs & Hl)]; simpl; [by exists []|].
  destruct (isWhiteSpace a) eqn:E.
  - exists (a :: l). simpl. rewrite E, Hl. split; [by rewrite <- Hs | done].
  - by exists [].
Qed.

Lemma trimEnd_split t :
  exists r, t = trimEnd t ++ r /\ forallb isWhiteSpace r = true.
Proof.
  unfold trimEnd. destruct (trimStart_split (rev t)) as (l & Ht & Hl).
  exists (rev l). split; [|by rewrite forallb_ws_rev].
  rewrite <- rev_app_distr, <- Ht. by rewrite rev_involutive.
Qed.

Lemma trimStart_app_ws l s :
  forallb isWhiteSpace l = true -> trimStart (l ++ s) = trimStart s.
Proof.
  induction l as [|a l IH]; simpl; [done|].
  intros H. apply andb_prop in H as [-> H]. by apply IH.
Qed.

Lemma trimStart_fixed c t : isWhiteSpace c = false -> trimStart (c :: t) = c :: t.
Proof. simpl. by intros ->. Qed.

(** The text between the white space around it. *)
Lemma trim_split s :
  exists l r, s = l ++ trim s ++ r
    /\ forallb isWhiteSpace l = true /\ forallb isWhiteSpace r = true.
Proof.
  unfold trim. destruct (trimStart_split s) as (l & Hs & Hl).
  destruct (trimEnd_split (trimStart s)) as (r & Ht & Hr).
  exists l, r. split; [|done]. by rewrite <- Ht.
Qed.

Lemma trim_edges s : edgesVisible (trim s) = true.
Proof.
  unfold trim, trimEnd. set (u := trimStart s).
  destruct (trimStart (rev u)) as [|c w] eqn:E; [done|].
  pose proof (trimStart_head _ _ _ E) as Hc.
  destruct (trimStart_suffix (rev u)) as [k Hk]. rewrite E in Hk.
  assert (Hu : u = rev (c :: w) ++ rev k).
  { rewrite <- rev_app_distr, <- Hk. by rewrite rev_involutive. }
  destruct (rev (c :: w)) as [|h t] eqn:Er.
  { apply (f_equal (@length N)) in Er. rewrite length_rev in Er. discriminate. }
  assert (Hh : isWhiteSpace h = false).
  { apply (trimStart_head s h (t ++ rev k)). exact Hu. }
  assert (Hlast : List.last (h :: t) h = c).
  { rewrite <- Er. simpl rev. apply last_last. }
  unfold edgesVisible. by rewrite Hlast, Hh, Hc.
Qed.

(** [trim] is determined by that shape. *)
Lemma trim_unique l m r :
  forallb isWhiteSpace l = true -> forallb isWhiteSpace r = true ->
  edgesVisible m = true -> trim (l ++ m ++ r) = m.
Proof.
  intros Hl Hr Hm. unfold trim. rewrite trimStart_app_ws by done.
  destruct m as [|c m'].
  - simpl. apply trimStart_nil_iff in Hr. rewrite Hr. done.
  - unfold edgesVisible in Hm. apply andb_prop in Hm as [Hc Hz].
    apply negb_true_iff in Hc, Hz.
    change ((c :: m') ++ r) with (c :: (m' ++ r)). rewrite trimStart_fixed by done.
    unfold trimEnd. change (c :: m' ++ r) with ((c :: m') ++ r).
    rewrite rev_app_distr, trimStart_app_ws by by rewrite forallb_ws_rev.
    destruct (exists_last (l := c :: m')) as (init & z & Hz'); [done|].
    rewrite Hz' in Hz |- *. rewrite last_last in Hz.
    rewrite rev_app_distr.
    change (rev [z] ++ rev init) with (z :: rev init).
    rewrite trimStart_fixed by done.
    change (z :: rev init) with (rev [z] ++ rev init).
    by rewrite <- rev_app_distr, rev_involutive.
Qed.

Lemma trim_idempotent s : trim (trim s) = trim s.
Proof.
  pose proof (trim_unique [] (trim s) [] eq_refl eq_refl (trim_edges s)) as H.
  by rewrite app_nil_l, app_nil_r in H.
Qed.

Lemma trim_surrounded l s r :
  forallb isWhiteSpace l = true -> forallb isWhiteSpace r = true ->
  trim (l ++ s ++ r) = trim s.
Proof.
  intros Hl Hr. destruct (trim_split s) as (l' & r' & Hs & Hl' & Hr').
  rewrite Hs at 1.
  replace (l ++ (l' ++ trim s ++ r') ++ r) with ((l ++ l') ++ trim s ++ (r' ++ r))
    by by rewrite <- !app_assoc.
  apply trim_unique; [| |apply trim_edges]; rewrite forallb_app; by apply andb_true_intro.
Qed.

End TrimFacts.

(** ** The rest of the chat component *)

Module ChatUiFacts.

Import Chat ChatUi JsFacts TrimFacts ChatFacts.

(** The keyboard cannot get round the Send button: the button is disabled
    exactly when [handleSend] would return at its guard, Enter without Shift
    does what a click on the enabled button does, and with the button
    disabled no key changes anything. Shift+Enter and other keys never send. *)
Theorem keyboard_respects_send_button (cap : Capability) (e : KeyboardEvent) (st : ChatState) :
  sendDisabled st = negb (isTurn st)
  /\ (sendDisabled st = true -> snd (handleKeyDown cap e st) = st /\ snd (onClick cap st) = st)
  /\ (key e = Enter -> shiftKey e = false -> handleKeyDown cap e st = onClick cap st)
  /\ (key e = OtherKey \/ shiftKey e = true -> snd (handleKeyDown cap e st) = st).
Proof.
  assert (Hd : sendDisabled st = negb (isTurn st)).
  { unfold sendDisabled, isTurn. by destruct (truthy _), (loading st). }
  split; [done|]. split; [|split].
  - intros H. rewrite Hd in H. apply negb_true_iff in H.
    unfold handleKeyDown, onClick. rewrite Hd, H. simpl.
    split; [|done]. destruct (key e); [|done].
    destruct (shiftKey e); [done|]. by apply handleSend_guard.
  - intros Hk Hs. unfold handleKeyDown, onClick. rewrite Hk, Hs. simpl.
    destruct (sendDisabled st); [|done].
    symmetry in Hd. apply negb_true_iff in Hd.
    pose proof (handleSend_guard cap st Hd) as Hg.
    destruct (handleSend cap st) as [[] st']. simpl in Hg. by subst.
  - unfold handleKeyDown. intros [Hk|Hs]; [by rewrite Hk|].
    rewrite Hs. by destruct (key e).
Qed.

(** Sending again right after a turn sends nothing: the turn has emptied
    the input box, so only one message goes out however often Enter is hit. *)
Theorem second_send_is_ignored (cap : Capability) (st : ChatState) :
  snd (handleSend cap (snd (handleSend cap st))) = snd (handleSend cap st).
Proof.
  destruct (isTurn st) eqn:E.
  - apply handleSend_guard. rewrite handleSend_turn by done. reflexivity.
  - rewrite (handleSend_guard cap st E). by apply handleSend_guard.
Qed.

(** White space typed around a message makes no difference to the turn:
    the history sent to the capability and the state the turn ends in are
    the same as without it. *)
Theorem surrounding_space_is_dropped (cap : Capability) (st : ChatState) (l r : JsString) :
  forallb isWhiteSpace l = true -> forallb isWhiteSpace r = true ->
  isTurn st = true ->
  let padded := snd (setInput (l ++ input st ++ r) st) in
  isTurn padded = true
  /\ sentHistory padded = sentHistory st
  /\ snd (handleSend cap padded) = snd (handleSend cap st).
Proof.
  intros Hl Hr E padded.
  assert (Ht : trim (input padded) = trim (input st)) by by apply trim_surrounded.
  assert (Hh : sentHistory padded = sentHistory st).
  { unfold sentHistory. by rewrite Ht. }
  assert (Hi : isTurn padded = true) by (unfold isTurn in *; by rewrite Ht).
  split; [done|]. split; [done|].
  rewrite !handleSend_turn by done.
  unfold turnReply, turnCompletion, turnErrors. by rewrite Hh.
Qed.

Lemma surrounding_space_is_dropped_witness :
  sentHistory (snd (setInput (lit "  " ++ lit "two developers" ++ lit " ") initialState))
  = sentHistory (typed (lit "two developers")).
Proof.
  exact (proj1 (proj2 (surrounding_space_is_dropped failing (typed (lit "two developers"))
    (lit "  ") (lit " ") eq_refl eq_refl eq_refl))).
Defined.

Lemma alternates_app r l l' :
  alternates r (l ++ l')
  = alternates r l && alternates (if Nat.even (length l) then r else flipRole r) l'.
Proof.
  revert r. induction l as [|m l IH]; intros r; simpl app; [done|].
  cbn [alternates length]. rewrite IH, Nat.even_succ, <- Nat.negb_even.
  rewrite <- andb_assoc. f_equal. f_equal.
  destruct (Nat.even (length l)); simpl; [done|]. by destruct r.
Qed.

Lemma turnReply_role cap st : role (turnReply cap st) = assistant.
Proof. unfold turnReply. by destruct (cap _). Qed.

Lemma turn_keeps_shape cap st :
  isTurn st = true -> historyShape (messages st) ->
  historyShape (messages st ++ [mkMessage user (trim (input st)); turnReply cap st]).
Proof.
  intros Ht (Hhead & Halt & Hodd & _ & Hwf). unfold historyShape.
  split_and!.
  - destruct (messages st); [discriminate Hhead | done].
  - rewrite alternates_app, Halt. rewrite <- Nat.negb_odd, Hodd. simpl.
    by rewrite turnReply_role.
  - rewrite length_app. simpl. rewrite Nat.add_comm. simpl.
    by rewrite Nat.odd_succ, Nat.even_succ.
  - exists (turnReply cap st). split; [|apply turnReply_role].
    change [mkMessage user (trim (input st)); turnReply cap st]
      with ([mkMessage user (trim (input st))] ++ [turnReply cap st]).
    by rewrite app_assoc, last_snoc.
  - rewrite forallb_app, Hwf. simpl. unfold wellFormedMessage at 1. simpl.
    unfold isTurn in Ht. apply andb_prop in Ht as [-> _].
    rewrite trim_edges. unfold wellFormedMessage. by rewrite turnReply_role.
Qed.

Lemma step_keeps_shape cap ev st :
  historyShape (messages st) -> historyShape (messages (step cap ev st)).
Proof.
  destruct ev as [v| |]; simpl; [done| |].
  - destruct (isTurn st) eqn:E.
    + rewrite handleSend_turn by done. simpl. unfold sentHistory.
      rewrite <- app_assoc. by apply turn_keeps_shape.
    + by rewrite handleSend_guard.
  - unfold fireTimer. by destruct (timers st).
Qed.

Lemma run_keeps_shape cap evs : forall st,
  historyShape (messages st) -> historyShape (messages (run cap evs st)).
Proof.
  induction evs as [|ev evs IH]; intros st H; simpl; [done|].
  by apply IH, step_keeps_shape.
Qed.

Lemma initial_shape : historyShape (messages initialState).
Proof. unfold historyShape. split_and!; try reflexivity. by exists greeting. Qed.

(** Every user message in the history is non-empty and has no white space
    at either end: trimming it again changes nothing. *)
Theorem user_messages_are_trimmed (cap : Capability) (evs : list Event) (m : ChatMessage) :
  m ∈ messages (run cap evs initialState) ->
  role m = user ->
  content m <> [] /\ edgesVisible (content m) = true /\ trim (content m) = content m.
Proof.
  intros Hin Hrole.
  destruct (run_keeps_shape cap evs initialState initial_shape) as (_ & _ & _ & _ & Hwf).
  rewrite forallb_forall in Hwf. apply list_elem_of_In in Hin.
  specialize (Hwf m Hin). unfold wellFormedMessage in Hwf. rewrite Hrole in Hwf.
  apply andb_prop in Hwf as [Hne He]. split_and!.
  - intros Hnil. by rewrite Hnil in Hne.
  - done.
  - pose proof (trim_unique [] (content m) [] eq_refl eq_refl He) as H.
    by rewrite app_nil_l, app_nil_r in H.
Qed.

Lemma user_messages_are_trimmed_witness :
  trim (lit "two developers") = lit "two developers".
Proof.
  refine (proj2 (proj2 (user_messages_are_trimmed failing
    [EvInput (lit "  two developers "); EvSend]
    (mkMessage user (lit "two developers")) _ eq_refl))).
  vm_compute. apply list_elem_of_further, list_elem_of_here.
Defined.

Lemma turn_keeps_offered cap st :
  isTurn st = true -> forall rs, rs ∈ turnCompletion cap st -> offered cap rs.
Proof.
  intros _ rs. unfold turnCompletion.
  destruct (cap (sentHistory st)) as [r|e] eqn:E; [|by intros ?%elem_of_nil].
  destruct (isComplete r) eqn:Ec; [|by intros ?%elem_of_nil].
  destruct (roles r) as [rs'|] eqn:Er; [|by intros ?%elem_of_nil].
  intros ->%list_elem_of_singleton. by exists (sentHistory st), r.
Qed.

Lemma step_keeps_offered cap ev st :
  completionsOffered cap st -> completionsOffered cap (step cap ev st).
Proof.
  intros [Ht Hr]. destruct ev as [v| |]; simpl.
  - done.
  - destruct (isTurn st) eqn:E; [|by rewrite handleSend_guard].
    rewrite handleSend_turn by done. split; simpl; [|done].
    intros rs [?|?]%elem_of_app; [by apply Ht | by apply (turn_keeps_offered cap st)].
  - unfold fireTimer. destruct (timers st) as [|rs rest] eqn:Et.
    { split; simpl; [|exact Hr]. intros rs. rewrite Et. by intros ?%elem_of_nil. }
    split; simpl.
    + intros rs' Hin. apply Ht. by apply list_elem_of_further.
    + intros rs' [= <-]. apply Ht. apply list_elem_of_here.
Qed.

Lemma run_keeps_offered cap evs : forall st,
  completionsOffered cap st -> completionsOffered cap (run cap evs st).
Proof.
  induction evs as [|ev evs IH]; intros st H; simpl; [done|].
  by apply IH, step_keeps_offered.
Qed.

(** The dialogue reaches COMPLETE only with roles that some response of
    the capability, flagged complete, carried: the component invents no
    completion and no role. *)
Theorem COMPLETE_only_as_offered (cap : Capability) (evs : list Event) (rs : list RoleSpec) :
  phase (run cap evs initialState) = COMPLETE rs ->
  exists h r, cap h = Fulfilled r /\ isComplete r = true /\ roles r = Some rs.
Proof.
  intros H.
  assert (H0 : completionsOffered cap initialState).
  { split; [by intros ? ?%elem_of_nil | done]. }
  destruct (run_keeps_offered cap evs initialState H0) as [_ Hr].
  apply Hr. unfold phase in H. by destruct (route _) as [|rs']; [|injection H as ->].
Qed.

Lemma COMPLETE_only_as_offered_witness :
  exists h r, completing [backendRole] h = Fulfilled r
    /\ isComplete r = true /\ roles r = Some [backendRole].
Proof.
  exact (COMPLETE_only_as_offered (completing [backendRole])
    [EvInput (lit "a backend developer"); EvSend; EvTimer] [backendRole] eq_refl).
Defined.

Lemma step_keeps_COMPLETE cap ev st :
  phase st <> GATHERING -> phase (step cap ev st) <> GATHERING.
Proof.
  unfold phase. destruct ev as [v| |]; simpl.
  - done.
  - destruct (isTurn st) eqn:E; [|by rewrite handleSend_guard].
    by rewrite handleSend_turn.
  - unfold fireTimer. by destruct (timers st).
Qed.

(** Typing and sending never change the phase, only a timer does, and no
    event of the component leads from COMPLETE back to GATHERING. *)
Theorem COMPLETE_is_final (cap : Capability) (st : ChatState) (evs : list Event) :
  (forall v, phase (step cap (EvInput v) st) = phase st)
  /\ phase (step cap EvSend st) = phase st
  /\ (phase st <> GATHERING -> phase (run cap evs st) <> GATHERING).
Proof.
  split_and!.
  - done.
  - simpl. destruct (isTurn st) eqn:E; [|by rewrite handleSend_guard].
    by rewrite handleSend_turn.
  - revert st. induction evs as [|ev evs IH]; intros st H; simpl; [done|].
    by apply IH, step_keeps_COMPLETE.
Qed.

End ChatUiFacts.

(** ** [handleSend] with its request in flight *)

Module ChatAsyncFacts.

Import Chat ChatUi ChatAsync ChatFacts ChatUiFacts.

(** Starting a turn and letting its request settle is [handleSend]. *)
Lemma start_then_settle cap st :
  ui (settle cap (sendStart (mkInFlight st None))) = snd (handleSend cap st).
Proof.
  unfold sendStart, settle, sendSettle, handleSend. simpl.
  destruct (negb (truthy (trim (input st))) || loading st); [done|]. simpl.
  destruct (cap _) as [r|e]; simpl; [|done].
  by destruct (isComplete r), (roles r).
Qed.

Lemma sendSettle_messages settled sent st :
  exists reply, role reply = assistant
    /\ messages (snd (sendSettle settled sent st)) = sent ++ [reply]
    /\ loading (snd (sendSettle settled sent st)) = false.
Proof.
  unfold sendSettle. destruct settled as [r|e]; simpl.
  - exists (mkMessage assistant (resContent r)). by destruct (isComplete r), (roles r).
  - by exists (mkMessage assistant (lit "Error: " ++ errorText e)).
Qed.

Lemma asyncStep_keeps_shape cap ev a : turnShape a -> turnShape (asyncStep cap ev a).
Proof.
  intros (Hhead & Halt & Hp). destruct ev as [v| | |]; simpl.
  - done.
  - unfold sendStart.
    destruct (negb (truthy (trim (input (ui a)))) || loading (ui a)) eqn:Eg; [done|].
    apply orb_false_iff in Eg as [_ Hl].
    destruct (pending a) as [sent|]; [destruct Hp as [Hl' _]; congruence|].
    destruct Hp as (_ & Hodd & _). unfold turnShape. simpl. split_and!.
    + destruct (messages (ui a)); [discriminate Hhead | done].
    + rewrite alternates_app, Halt. by rewrite <- Nat.negb_odd, Hodd.
    + done.
    + done.
    + rewrite length_app. change (length [_]) with 1. by rewrite Nat.add_1_r, Nat.even_succ.
    + exists (mkMessage user (trim (input (ui a)))). by rewrite last_snoc.
  - unfold settle. destruct (pending a) as [sent|] eqn:Es; [|by unfold turnShape; rewrite Es].
    destruct Hp as (_ & Hms & Heven & _).
    destruct (sendSettle_messages (cap sent) sent (ui a)) as (reply & Hr & Hm & Hl).
    unfold turnShape. simpl. rewrite Hm, Hl, <- Hms. split_and!.
    + destruct (messages (ui a)); [discriminate Hhead | done].
    + rewrite alternates_app, Halt, Heven. simpl. by rewrite Hr.
    + done.
    + rewrite length_app. change (length [_]) with 1. by rewrite Nat.add_1_r, Nat.odd_succ.
    + exists reply. by rewrite last_snoc.
  - unfold fireTimer. by destruct (timers (ui a)).
Qed.

Lemma asyncRun_keeps_shape cap evs : forall a,
  turnShape a -> turnShape (asyncRun cap evs a).
Proof.
  induction evs as [|ev evs IH]; intros a H; simpl; [done|].
  by apply IH, asyncStep_keeps_shape.
Qed.

(** Whatever the user and the capability do, and whether or not the
    request of a turn ever settles, the history starts with the greeting and
    the assistant and the user take turns in it. While a request is pending
    the input is locked ([loading]), the history is the one that was sent,
    its length is even and the user's message is last; at every other time
    the length is odd and the assistant has the last word: every user message
    whose request has settled got one answer, a reply or an error text. *)
Theorem history_takes_turns_in_flight (cap : Capability) (evs : list AsyncEvent) :
  let a := asyncRun cap evs asyncInitial in
  let ms := messages (ui a) in
  head ms = Some greeting
  /\ alternates assistant ms = true
  /\ match pending a with
     | Some sent =>
         loading (ui a) = true /\ ms = sent /\ Nat.even (length ms) = true
         /\ exists m, last ms = Some m /\ role m = user
     | None =>
         loading (ui a) = false /\ Nat.odd (length ms) = true
         /\ exists m, last ms = Some m /\ role m = assistant
     end.
Proof.
  apply (asyncRun_keeps_shape cap evs asyncInitial).
  unfold turnShape. simpl. split_and!; try reflexivity. by exists greeting.
Qed.

(** A request that has not settled: the history ends with the user. *)
Example history_in_flight :
  let a := asyncRun failing [AsyncInput (lit " two developers"); AsyncSend] asyncInitial in
  messages (ui a) = [greeting; mkMessage user (lit "two developers")]
  /\ loading (ui a) = true
  /\ messages (ui (asyncStep failing AsyncSettle a))
     = [greeting; mkMessage user (lit "two developers");
        mkMessage assistant (lit "Error: Failed to fetch")].
Proof. repeat split. Qed.

End ChatAsyncFacts.

(** ** More on the submission boundary *)

Module DescriptionPageViewFacts.

Import DescriptionPage DescriptionPageView JsFacts.

(** Within the length limit the Post button and Ctrl/Cmd+Enter do the same:
    both post the text as typed when it has a visible character, and neither
    posts otherwise. *)
Theorem button_and_shortcut_agree (d : JsString) (e : KeyboardEvent) :
  (characterCount d <= maxCharacters)%Z ->
  key e = Enter -> metaKey e || ctrlKey e = true ->
  onKeyDown e d = onClick d
  /\ onClick d = (if hasVisibleChar d then Some (mkRequest d) else None).
Proof.
  intros Hl Hk Hm. unfold onKeyDown, onClick, postDisabled, handlePost.
  rewrite Hk, Hm, truthy_trim.
  destruct (Z.ltb_spec maxCharacters (characterCount d)); [lia|].
  by destruct (hasVisibleChar d).
Qed.

Lemma button_and_shortcut_agree_witness :
  onKeyDown (mkKey Enter true false) (lit " React app ") = onClick (lit " React app ").
Proof.
  refine (proj1 (button_and_shortcut_agree (lit " React app ") (mkKey Enter true false)
    _ eq_refl eq_refl)).
  vm_compute. discriminate.
Defined.

(** Only the button checks the length: for a text beyond the limit, which
    [maxLength] keeps the user from typing but [handlePost] does not test,
    the button is disabled while Ctrl/Cmd+Enter posts it. *)
Theorem shortcut_has_no_length_check (d : JsString) (e : KeyboardEvent) :
  (maxCharacters < characterCount d)%Z -> hasVisibleChar d = true ->
  key e = Enter -> metaKey e || ctrlKey e = true ->
  postDisabled d = true /\ onClick d = None /\ onKeyDown e d = Some (mkRequest d).
Proof.
  intros Hl Hv Hk Hm. unfold onKeyDown, onClick, postDisabled, handlePost.
  rewrite Hk, Hm, truthy_trim, Hv. apply Z.ltb_lt in Hl. by rewrite Hl.
Qed.

Lemma shortcut_has_no_length_check_witness :
  onClick (List.repeat 97%N (Z.to_nat 5001)) = None
  /\ onKeyDown (mkKey Enter false true) (List.repeat 97%N (Z.to_nat 5001))
     = Some (mkRequest (List.repeat 97%N (Z.to_nat 5001))).
Proof.
  refine (proj2 (shortcut_has_no_length_check (List.repeat 97%N (Z.to_nat 5001))
    (mkKey Enter false true) _ _ eq_refl eq_refl)); vm_compute; reflexivity.
Defined.

Lemma descriptionAfter_lastEdit evs : forall d, descriptionAfter d evs = lastEdit d evs.
Proof.
  unfold descriptionAfter.
  induction evs as [|ev evs IH]; intros d; simpl; [done|].
  destruct ev; simpl; apply IH.
Qed.

Lemma posted_lastEdit evs : forall d r,
  r ∈ posted d evs ->
  exists evs1 ev evs2, evs = evs1 ++ ev :: evs2
    /\ projectDescription r = lastEdit d evs1
    /\ (forall v, ev <> Edit v).
Proof.
  induction evs as [|ev evs IH]; intros d r; simpl; [by intros ?%elem_of_nil|].
  pose proof (DescriptionPageFacts.step_posts d ev) as Hp.
  destruct (step d ev) as [d' out] eqn:Es.
  assert (Hd' : d' = lastEdit d [ev]).
  { destruct ev; simpl in *; by injection Es as <- _. }
  assert (Hrec : r ∈ posted d' evs ->
    exists evs1 ev0 evs2, ev :: evs = evs1 ++ ev0 :: evs2
      /\ projectDescription r = lastEdit d evs1 /\ (forall v, ev0 <> Edit v)).
  { intros Hin. destruct (IH d' r Hin) as (evs1 & ev0 & evs2 & -> & Hr & Hne).
    exists (ev :: evs1), ev0, evs2. split; [done|]. split; [|done].
    rewrite Hr, Hd'. by destruct ev. }
  destruct out as [r'|]; [|done].
  intros [->|Hin]%elem_of_cons; [|by apply Hrec].
  exists [], ev, evs. split; [done|]. simpl in Hp.
  destruct (Hp r' eq_refl) as [-> _]. split; [done|].
  intros v ->. simpl in Es. discriminate.
Qed.

(** The textarea always holds the value of the last edit, posting leaves it
    as it is, and every description posted is that value, white space around
    it included: the page trims only to decide, never what it sends. *)
Theorem posted_text_is_last_edit (d : JsString) (evs : list Event) :
  descriptionAfter d evs = lastEdit d evs
  /\ (forall r, r ∈ posted d evs ->
        exists evs1 ev evs2, evs = evs1 ++ ev :: evs2
          /\ projectDescription r = lastEdit d evs1
          /\ (forall v, ev <> Edit v)).
Proof.
  split; [apply descriptionAfter_lastEdit | intros r; apply posted_lastEdit].
Qed.

(** The "Approaching limit" note shows exactly when more than 4500
    characters are typed; so it never shows on short texts and always shows
    when the Post button is disabled for length. *)
Theorem approaching_limit_from_4501 (d : JsString) :
  (approachingLimit d = true <-> (4500 < characterCount d)%Z)
  /\ ((maxCharacters < characterCount d)%Z -> approachingLimit d = true).
Proof.
  assert (H : approachingLimit d = true <-> (4500 < characterCount d)%Z).
  { unfold approachingLimit. rewrite negb_true_iff, <- not_true_iff_false, Qle_bool_iff.
    unfold Qle, maxCharacters. simpl. lia. }
  split; [done|]. intros Hl. apply H. unfold maxCharacters in Hl. lia.
Qed.

End DescriptionPageViewFacts.

(** ** The overview column *)

Module ChatPageFacts.

Import Chat ChatPage.

(** Whatever [getOverview] does, the column leaves its skeleton: on success
    it shows the reported number of CVs and one row per top skill, or "No
    skills available" for an empty list; on failure the error is logged and
    it shows 0 CVs and "No skills available". A row says "person" for a
    count of 1 and "people" for every other count. The mode is untouched. *)
Theorem overview_always_settles (settled : Settled OverviewData) (st : PageState) :
  let st' := fetchOverview settled st in
  loadingOverview st' = false
  /\ mode st' = mode st
  /\ renderOverview st' =
       match settled with
       | Fulfilled d =>
           OverviewCard (cvCount d)
             (match topSkills d with
              | [] => NoSkillsAvailable
              | _ :: _ => SkillRows (List.map rowOf (topSkills d))
              end)
       | RejectedWith _ => OverviewCard 0 NoSkillsAvailable
       end
  /\ pageErrors st' =
       pageErrors st ++ (match settled with Fulfilled _ => [] | RejectedWith e => [e] end)
  /\ (forall sc, rowCount (rowOf sc) = count sc
        /\ (rowUnit (rowOf sc) = lit "person" <-> count sc = 1%Z)
        /\ (rowUnit (rowOf sc) = lit "people" <-> count sc <> 1%Z)).
Proof.
  intros st'. subst st'. split_and!.
  - done.
  - by destruct settled.
  - destruct settled as [d|e]; [|done].
    unfold fetchOverview, renderOverview. simpl. by destruct (topSkills d).
  - destruct settled; simpl; [by rewrite app_nil_r | done].
  - intros sc. unfold rowOf, unitOf. simpl.
    destruct (Z.eqb_spec (count sc) 1); split_and!; try done;
      split; intros H; try done; discriminate H.
Qed.

End ChatPageFacts.

(** ** The fields of the Consultant interface *)

Module ConsultantFieldsFacts.

Import ConsultantType ConsultantFields.

Lemma isConsultant_lookups (o o' : JsObject) :
  (forall k, k ∈ declaredFields -> o' !! k = o !! k) ->
  isConsultant o' = isConsultant o.
Proof.
  intros H. unfold isConsultant, required, optional.
  rewrite !H; [done|..]; unfold declaredFields;
    repeat first [apply list_elem_of_here | apply list_elem_of_further].
Qed.

(** A Consultant stays one when a property the interface does not declare
    is added or changed, and when an optional property is removed. *)
Theorem consultant_is_structural (o : JsObject) (k : string) (v : JsValue) :
  isConsultant o = true ->
  (k ∉ declaredFields -> isConsultant (<[k:=v]> o) = true)
  /\ (k ∈ optionalFields -> isConsultant (delete k o) = true).
Proof.
  intros Ho. split.
  - intros Hk. rewrite <- Ho. apply isConsultant_lookups.
    intros k' Hk'. apply lookup_insert_ne. by intros ->.
  - intros Hk. revert Ho. unfold isConsultant, required, optional.
    unfold optionalFields in Hk.
    repeat (apply elem_of_cons in Hk as [->|Hk]); [..|by apply elem_of_nil in Hk];
      rewrite lookup_delete_eq, !lookup_delete_ne by done;
      intros Ho; repeat (apply andb_prop in Ho as [Ho ?]);
      repeat (apply andb_true_intro; split); done.
Qed.

Lemma consultant_is_structural_witness :
  isConsultant (delete "id" anonymousConsultant) = true.
Proof.
  refine (proj2 (consultant_is_structural anonymousConsultant "id" VNull eq_refl) _).
  apply list_elem_of_here.
Defined.

End ConsultantFieldsFacts.

(** ** The shell scripts *)

Module ScriptsFacts.

Import Scripts.

Open Scope string_scope.

Lemma orDefault_nonempty v d : d <> "" -> orDefault v d <> "".
Proof.
  intros Hd. unfold orDefault. destruct v as [s|]; [|done].
  by destruct (String.eqb_spec s "").
Qed.

Lemma orDefault_given s d : s <> "" -> orDefault (Some s) d = s.
Proof. intros H. unfold orDefault. by destruct (String.eqb_spec s ""). Qed.

Lemma resolve_nonempty env : resolveWeaviateUrl env <> "".
Proof.
  unfold resolveWeaviateUrl. destruct (_ || _).
  - destruct (String.eqb_spec (orDefault (WEAVIATE_URL env) "http://weaviate:8080")
                "http://localhost:8080"); [done|].
    by apply orDefault_nonempty.
  - by apply orDefault_nonempty.
Qed.

Lemma resolve_in_docker env :
  inDocker env = true -> resolveWeaviateUrl env <> "http://localhost:8080".
Proof.
  unfold resolveWeaviateUrl, inDocker. intros ->.
  by destruct (String.eqb_spec (orDefault (WEAVIATE_URL env) "http://weaviate:8080")
                "http://localhost:8080").
Qed.

Lemma resolve_unfold env :
  resolveWeaviateUrl env =
    if inDocker env
    then (if String.eqb (orDefault (WEAVIATE_URL env) "http://weaviate:8080")
               "http://localhost:8080"
          then "http://weaviate:8080"
          else orDefault (WEAVIATE_URL env) "http://weaviate:8080")
    else orDefault (WEAVIATE_URL env) "http://localhost:8080".
Proof. reflexivity. Qed.

(** The URL setup.sh exports is never empty; inside Docker it is never
    [http://localhost:8080]; a non-empty WEAVIATE_URL other than that one is
    kept as given, in and out of Docker; without one the default is the
    [weaviate] service in Docker and localhost outside; and resolving again
    from the exported value changes nothing. *)
Theorem exported_url_fits_the_host (env : Env) :
  resolveWeaviateUrl env <> ""
  /\ (inDocker env = true -> resolveWeaviateUrl env <> "http://localhost:8080")
  /\ (forall u, WEAVIATE_URL env = Some u -> u <> "" -> u <> "http://localhost:8080" ->
        resolveWeaviateUrl env = u)
  /\ (nonEmpty (WEAVIATE_URL env) = false ->
        resolveWeaviateUrl env =
          if inDocker env then "http://weaviate:8080" else "http://localhost:8080")
  /\ resolveWeaviateUrl (withUrl env (resolveWeaviateUrl env)) = resolveWeaviateUrl env.
Proof.
  split_and!.
  - apply resolve_nonempty.
  - apply resolve_in_docker.
  - intros u Hu Hne Hl. rewrite resolve_unfold, Hu, !orDefault_given by done.
    destruct (inDocker env); [|done].
    by destruct (String.eqb_spec u "http://localhost:8080").
  - intros Hn. rewrite resolve_unfold.
    assert (Hd : forall d, orDefault (WEAVIATE_URL env) d = d).
    { intros d. unfold nonEmpty, orDefault in *. destruct (WEAVIATE_URL env) as [s|]; [|done].
      by destruct (String.eqb_spec s ""). }
    rewrite !Hd. by destruct (inDocker env).
  - rewrite (resolve_unfold (withUrl env _)).
    change (inDocker (withUrl env ?u)) with (inDocker env).
    change (WEAVIATE_URL (withUrl env ?u)) with (Some u).
    rewrite !orDefault_given by apply resolve_nonempty.
    destruct (inDocker env) eqn:Ed; [|done].
    pose proof (resolve_in_docker env Ed) as Hne.
    by destruct (String.eqb_spec (resolveWeaviateUrl env) "http://localhost:8080").
Qed.

Lemma probes_app t1 t2 : probes (t1 ++ t2) = probes t1 + probes t2.
Proof. unfold probes. by rewrite List.filter_app, length_app. Qed.

Lemma secondsSlept_app t1 t2 : secondsSlept (t1 ++ t2) = secondsSlept t1 + secondsSlept t2.
Proof.
  unfold secondsSlept. induction t1 as [|a t1 IH]; simpl; [done|].
  rewrite IH. destruct a; lia.
Qed.

Lemma waitForWeaviate_bounds url ready attempts :
  probes (waitForWeaviate url ready attempts) <= length attempts
  /\ secondsSlept (waitForWeaviate url ready attempts)
     <= retry_delay * length (List.filter (fun a => negb (Nat.eqb a max_retries)) attempts).
Proof.
  induction attempts as [|a l [IHp IHs]]; [split; vm_compute; lia|].
  cbn [waitForWeaviate List.filter length].
  change (probes (Curl ?u :: ?t)) with (S (probes t)).
  change (secondsSlept (Curl ?u :: ?t)) with (secondsSlept t).
  destruct (ready a).
  - change (probes [Echo readyLine]) with 0.
    change (secondsSlept [Echo readyLine]) with 0. split; lia.
  - rewrite probes_app, secondsSlept_app.
    destruct (Nat.eqb a max_retries); cbn [negb length].
    + change (probes [Echo giveUpLine]) with 0.
      change (secondsSlept [Echo giveUpLine]) with 0. split; lia.
    + change (probes [Echo (waitingLine a); Sleep retry_delay]) with 0.
      change (secondsSlept [Echo (waitingLine a); Sleep retry_delay]) with (retry_delay + 0).
      unfold retry_delay in *. split; lia.
Qed.

(** Up to the first attempt that finds Weaviate ready the loop probes once
    per attempt and sleeps between them. *)
Lemma waitForWeaviate_first_ready url ready n : forall a k,
  a <= k < a + n -> k <= max_retries ->
  ready k = true -> (forall j, a <= j < k -> ready j = false) ->
  probes (waitForWeaviate url ready (seq a n)) = k - a + 1
  /\ secondsSlept (waitForWeaviate url ready (seq a n)) = retry_delay * (k - a)
  /\ last (waitForWeaviate url ready (seq a n)) = Some (Echo readyLine).
Proof.
  induction n as [|n IH]; intros a k Hk Hmax Hr Hbefore; [lia|].
  simpl seq. cbn [waitForWeaviate].
  change (probes (Curl ?u :: ?t)) with (S (probes t)).
  change (secondsSlept (Curl ?u :: ?t)) with (secondsSlept t).
  destruct (decide (a = k)) as [->|Hne].
  - rewrite Hr. change (probes [Echo readyLine]) with 0.
    change (secondsSlept [Echo readyLine]) with 0.
    split_and!; [lia | lia | done].
  - rewrite (Hbefore a) by lia.
    assert (Ha : Nat.eqb a max_retries = false) by (apply Nat.eqb_neq; lia).
    rewrite Ha.
    destruct (IH (S a) k) as (Hp & Hs & Hl); [lia|done|done|intros j Hj; apply Hbefore; lia|].
    rewrite probes_app, secondsSlept_app, Hp, Hs.
    change (probes [Echo (waitingLine a); Sleep retry_delay]) with 0.
    change (secondsSlept [Echo (waitingLine a); Sleep retry_delay]) with (retry_delay + 0).
    split_and!; [lia | unfold retry_delay; lia |].
    rewrite app_comm_cons, last_app, Hl. done.
Qed.

(** If no attempt finds Weaviate ready, every attempt probes, all but the
    last sleep, and the loop ends with the warning. *)
Lemma waitForWeaviate_never_ready url ready n : forall a,
  a + n = S max_retries -> 0 < n ->
  (forall j, a <= j <= max_retries -> ready j = false) ->
  probes (waitForWeaviate url ready (seq a n)) = n
  /\ secondsSlept (waitForWeaviate url ready (seq a n)) = retry_delay * (n - 1)
  /\ last (waitForWeaviate url ready (seq a n)) = Some (Echo giveUpLine).
Proof.
  induction n as [|n IH]; intros a Han Hn Hnever; [lia|].
  simpl seq. cbn [waitForWeaviate].
  change (probes (Curl ?u :: ?t)) with (S (probes t)).
  change (secondsSlept (Curl ?u :: ?t)) with (secondsSlept t).
  rewrite (Hnever a) by lia.
  destruct (Nat.eqb_spec a max_retries) as [->|Hne].
  - assert (n = 0) by lia. subst n. simpl.
    split_and!; [done | unfold retry_delay; lia | done].
  - destruct (IH (S a)) as (Hp & Hs & Hl); [lia|lia|intros j Hj; apply Hnever; lia|].
    rewrite probes_app, secondsSlept_app, Hp, Hs.
    change (probes [Echo (waitingLine a); Sleep retry_delay]) with 0.
    change (secondsSlept [Echo (waitingLine a); Sleep retry_delay]) with (retry_delay + 0).
    split_and!; [lia | unfold retry_delay; lia |].
    rewrite app_comm_cons, last_app, Hl. done.
Qed.

(** The readiness loop of the entry point makes between 1 and 30 probes and
    sleeps at most 58 seconds. If attempt [k] is the first to find Weaviate
    ready it makes [k] probes, sleeps [2 * (k - 1)] seconds and reports
    ready; if none does it makes all 30 probes, sleeps 58 seconds and ends
    with the warning. *)
Theorem readiness_wait_is_bounded (url : string) (ready : nat -> bool) :
  let t := waitForWeaviate url ready (seq 1 max_retries) in
  1 <= probes t <= 30
  /\ secondsSlept t <= 58
  /\ (forall k, 1 <= k <= 30 -> ready k = true -> (forall j, 1 <= j < k -> ready j = false) ->
        probes t = k /\ secondsSlept t = 2 * (k - 1) /\ last t = Some (Echo readyLine))
  /\ ((forall j, 1 <= j <= 30 -> ready j = false) ->
        probes t = 30 /\ secondsSlept t = 58 /\ last t = Some (Echo giveUpLine)).
Proof.
  intros t. subst t.
  destruct (waitForWeaviate_bounds url ready (seq 1 max_retries)) as [Hp Hs].
  change (length (seq 1 max_retries)) with 30 in Hp.
  change (retry_delay * _) with 58 in Hs.
  split_and!.
  - unfold max_retries. simpl seq. cbn [waitForWeaviate].
    change (probes (Curl ?u :: ?t)) with (S (probes t)). lia.
  - done.
  - done.
  - intros k Hk Hr Hbefore.
    destruct (waitForWeaviate_first_ready url ready max_retries 1 k) as (H1 & H2 & H3);
      [unfold max_retries; lia | unfold max_retries; lia | done | done |].
    unfold retry_delay in H2. split_and!; [lia | lia | done].
  - intros Hnever.
    destruct (waitForWeaviate_never_ready url ready max_retries 1) as (H1 & H2 & H3);
      [done | unfold max_retries; lia | done |].
    split_and!; [done | done | done].
Qed.

Lemma waitForWeaviate_actions url ready attempts a :
  a ∈ waitForWeaviate url ready attempts ->
  match a with Curl _ | Echo _ | Sleep _ => True | _ => False end.
Proof.
  induction attempts as [|k l IH]; simpl; [by intros ?%elem_of_nil|].
  intros [->|Hin]%elem_of_cons; [done|].
  destruct (ready k); [by apply list_elem_of_singleton in Hin as ->|].
  apply elem_of_app in Hin as [Hin|Hin]; [|by apply IH].
  destruct (Nat.eqb k max_retries).
  - by apply list_elem_of_singleton in Hin as ->.
  - apply elem_of_cons in Hin as [->|Hin]; [done|].
    by apply list_elem_of_singleton in Hin as ->.
Qed.

Lemma seeding_switch v :
  String.eqb (orDefault v "false") "true" = true <-> v = Some "true".
Proof.
  unfold orDefault. destruct v as [s|]; [|done].
  destruct (String.eqb_spec s "") as [->|Hne]; [done|].
  rewrite String.eqb_eq. split; [by intros -> | by intros [= ->]].
Qed.

(** Finds an action in a trace made of literal pieces. *)
Ltac find_in_trace :=
  first [ apply list_elem_of_here
        | apply list_elem_of_further; find_in_trace
        | apply elem_of_app; left; find_in_trace
        | apply elem_of_app; right; find_in_trace ].

(** Takes apart the hypothesis that an action is in a trace. *)
Ltac split_trace H :=
  repeat first [ apply elem_of_app in H as [H|H]
               | apply elem_of_cons in H as [H|H]
               | apply elem_of_nil in H; destruct H ].

Lemma entrypoint_last env ready initOk seedOk :
  last (entrypoint env ready initOk seedOk) = Some (if initOk then ExecUvicorn else Exit 1).
Proof.
  unfold entrypoint. rewrite !app_assoc. destruct initOk; simpl negb; cbv iota.
  - rewrite !app_assoc.
    change [Echo "Starting FastAPI application..."; ExecUvicorn]
      with (app [Echo "Starting FastAPI application..."] [ExecUvicorn]).
    by rewrite app_assoc, last_snoc.
  - change [Echo "ERROR: Failed to initialize Weaviate schema. Exiting..."; Exit 1]
      with (app [Echo "ERROR: Failed to initialize Weaviate schema. Exiting..."] [Exit 1]).
    by rewrite app_assoc, last_snoc.
Qed.

(** Where an action that is no probe, echo or sleep can be in the trace of
    the entry point. *)
Lemma entrypoint_steps env ready initOk seedOk a :
  match a with Curl _ | Echo _ | Sleep _ => False | _ => True end ->
  a ∈ entrypoint env ready initOk seedOk <->
    a = Python "scripts/init_weaviate.py"
    \/ (initOk = false /\ a = Exit 1)
    \/ (initOk = true /\ a = ExecUvicorn)
    \/ (initOk = true /\ SEED_MOCK_DATA env = Some "true"
        /\ a = Python "scripts/insert_mock_data.py").
Proof.
  intros Ha. unfold entrypoint.
  pose proof (waitForWeaviate_actions (orDefault (WEAVIATE_URL env) "http://weaviate:8080")
      ready (seq 1 max_retries) a) as Hw.
  pose proof (seeding_switch (SEED_MOCK_DATA env)) as Hs.
  set (w := waitForWeaviate _ ready (seq 1 max_retries)) in *. clearbody w.
  destruct initOk; simpl negb; cbv iota;
    [destruct (String.eqb (orDefault (SEED_MOCK_DATA env) "false") "true"); [destruct seedOk|]|].
  all: split;
    [ intros H; split_trace H; subst; try done; try (by apply Hw in H; destruct a);
      try (by left); try (right; by left); try (right; right; by left);
      try (right; right; right; split_and!; [done | by apply Hs | done])
    | intros [->|[[? ->]|[[? ->]|(? & Hseed & ->)]]]; try done; try find_in_trace ].
  all: apply Hs in Hseed; discriminate.
Qed.

(** The entry point always tries to initialise the schema, ready or not.
    It starts the application exactly when that succeeds, as its last
    action; when it fails the script exits with status 1, as its last action,
    and neither seeds nor starts anything. *)
Theorem application_starts_iff_schema_ok (env : Env) (ready : nat -> bool) (initOk seedOk : bool) :
  let t := entrypoint env ready initOk seedOk in
  Python "scripts/init_weaviate.py" ∈ t
  /\ last t = Some (if initOk then ExecUvicorn else Exit 1)
  /\ (ExecUvicorn ∈ t <-> initOk = true)
  /\ (Exit 1 ∈ t <-> initOk = false)
  /\ (initOk = false -> Python "scripts/insert_mock_data.py" ∉ t).
Proof.
  intros t. subst t. split_and!.
  - apply entrypoint_steps; [done | by left].
  - apply entrypoint_last.
  - rewrite entrypoint_steps by done. intuition (try discriminate; auto).
  - rewrite entrypoint_steps by done. intuition (try discriminate; auto).
  - intros -> H. apply entrypoint_steps in H; [|done]. intuition (try discriminate; auto).
Qed.

(** Mock data is seeded exactly when the schema was initialised and
    SEED_MOCK_DATA is the string [true], nothing else (not [TRUE], not [1],
    not unset); and whether seeding succeeds or fails, the application is
    started all the same. *)
Theorem seeding_needs_exact_true (env : Env) (ready : nat -> bool) (initOk seedOk : bool) :
  (Python "scripts/insert_mock_data.py" ∈ entrypoint env ready initOk seedOk
     <-> initOk = true /\ SEED_MOCK_DATA env = Some "true")
  /\ (initOk = true ->
        last (entrypoint env ready initOk seedOk) = Some ExecUvicorn
        /\ Exit 1 ∉ entrypoint env ready initOk seedOk).
Proof.
  split.
  - rewrite entrypoint_steps by done. intuition (try discriminate; auto).
  - intros ->. split; [apply entrypoint_last|].
    intros H. apply entrypoint_steps in H; [|done]. intuition (try discriminate; auto).
Qed.

End ScriptsFacts.
